(** * steiner.js: an approximate Steiner tree by simultaneous searches

    A shallow embedding of [src/steiner.js].  JavaScript objects that the
    code mutates (the annotated nodes) live in a store, the list [xnodes];
    a reference to an annotated node is its index in that store, and reading
    through a reference is a lookup.  The annotated edges are never written
    after they are built, so they are plain values. *)

From Stdlib Require Import ZArith Lia Wellfounded Relation_Operators.
From stdpp Require Import base option list relations.

Local Open Scope nat_scope.

(** * The program *)

(** ** Data model *)

(** A caller's node "can be anything" and is compared with [===]. *)
Definition Node := nat.

(** A caller's edge: [from], [to], [weight], and metadata the algorithm
    never looks at. *)
Module Edge.
Record t := mk { from : Node; to : Node; weight : Z; meta : nat }.
End Edge.

(** The annotated copy of an edge (lines 60-67); [from] and [to] are
    references to annotated nodes. *)
Module XEdge.
Record t := mk {
  edge : Edge.t;
  from : nat;
  to : nat;
  weight : Z;
  in_solution : bool;
  in_first_component : bool
}.
End XEdge.

Abbreviation xedge := XEdge.t.

(** [{point, path, endweight}] (lines 110 and 221). *)
Record ppath := mk_ppath {
  point : nat;
  path : list xedge;
  endweight : Z
}.

(** [{node, path}] (line 171); [wnode] is the searching required node. *)
Record witness_t := mk_witness {
  wnode : nat;
  wpath : list xedge
}.

(** The annotated copy of a node (lines 38-49). *)
Record xnode := mk_xnode {
  node : Node;
  reqd : bool;
  outgoing : list xedge;
  incoming : list xedge;
  in_permanent_web : bool;
  in_temporary_web : bool;
  in_solution : bool;
  in_first_component : bool;
  witness : option witness_t;
  fifo : list ppath
}.

(** What a JavaScript call ends with. *)
Inductive js_error := TypeError.

Inductive completion (A : Type) :=
| Returned (a : A)
| Thrown (e : js_error).
Arguments Returned {A} a.
Arguments Thrown {A} e.

(** ** Field updates *)

Definition push_outgoing (e : xedge) (x : xnode) : xnode :=
  mk_xnode (node x) (reqd x) (outgoing x ++ [e]) (incoming x)
    (in_permanent_web x) (in_temporary_web x) (in_solution x)
    (in_first_component x) (witness x) (fifo x).

Definition push_incoming (e : xedge) (x : xnode) : xnode :=
  mk_xnode (node x) (reqd x) (outgoing x) (incoming x ++ [e])
    (in_permanent_web x) (in_temporary_web x) (in_solution x)
    (in_first_component x) (witness x) (fifo x).

Definition set_fifo (q : list ppath) (x : xnode) : xnode :=
  mk_xnode (node x) (reqd x) (outgoing x) (incoming x)
    (in_permanent_web x) (in_temporary_web x) (in_solution x)
    (in_first_component x) (witness x) q.

Definition fifo_push (pp : ppath) (x : xnode) : xnode :=
  set_fifo (fifo x ++ [pp]) x.

(** [x.in_permanent_web = true] *)
Definition set_permanent (x : xnode) : xnode :=
  mk_xnode (node x) (reqd x) (outgoing x) (incoming x)
    true (in_temporary_web x) (in_solution x)
    (in_first_component x) (witness x) (fifo x).

(** [p.in_temporary_web = true; p.witness = w] (lines 170-171) *)
Definition set_arrival (w : witness_t) (x : xnode) : xnode :=
  mk_xnode (node x) (reqd x) (outgoing x) (incoming x)
    (in_permanent_web x) true (in_solution x)
    (in_first_component x) (Some w) (fifo x).

(** ** Annotated graph builder (lines 23-71) *)

(** The object literal of lines 38-49. *)
Definition new_xnode (n : Node) (reqd : bool) : xnode :=
  mk_xnode n reqd [] [] false false false false None [].

Section Builder.
Variable required : list Node.

Definition is_reqd (n : Node) : bool :=
  existsb (fun r => Nat.eqb r n) required.

(** The body of [nodes.forEach] (lines 32-51), on the pair
    [(xnodes, reqds)]. *)
Definition annotate_node (acc : list xnode * nat) (n : Node)
  : list xnode * nat :=
  let reqd := is_reqd n in
  (acc.1 ++ [new_xnode n reqd], if reqd then S acc.2 else acc.2).

Definition annotate_nodes (nodes : list Node) : list xnode * nat :=
  fold_left annotate_node nodes ([], 0).
End Builder.

(** [get_xnode] (lines 53-57): the first annotated node wrapping [n];
    [None] is JavaScript's [undefined]. *)
Definition get_xnode (xnodes : list xnode) (n : Node) : option nat :=
  fst <$> list_find (fun x => node x = n) xnodes.

(** The body of [edges.forEach] (lines 59-71) on [(xnodes, xedges)].
    [xedge.from.outgoing] throws when [get_xnode] gave [undefined], and so
    does [xedge.to.incoming]; nothing built so far survives the throw. *)
Definition annotate_edge (acc : completion (list xnode * list xedge))
    (e : Edge.t) : completion (list xnode * list xedge) :=
  match acc with
  | Thrown err => Thrown err
  | Returned (xnodes, xedges) =>
      match get_xnode xnodes (Edge.from e), get_xnode xnodes (Edge.to e) with
      | Some f, Some t =>
          let xe := XEdge.mk e f t (Edge.weight e) false false in
          let xnodes' := alter (push_outgoing xe) f xnodes in
          Returned (alter (push_incoming xe) t xnodes', xedges ++ [xe])
      | _, _ => Thrown TypeError
      end
  end.

Definition annotate_edges (xnodes : list xnode) (edges : list Edge.t)
  : completion (list xnode * list xedge) :=
  fold_left annotate_edge edges (Returned (xnodes, [])).

(** ** Search state *)

Record state := mk_state {
  xnodes : list xnode;
  soln : list xedge;
  solved_reqds : nat
}.

Definition with_xnodes (f : list xnode -> list xnode) (st : state) : state :=
  mk_state (f (xnodes st)) (soln st) (solved_reqds st).

(** Lines 107-112: every required node gets a queue holding the empty path
    to itself. *)
Definition seed (i : nat) (n : xnode) : xnode :=
  if reqd n then set_fifo [mk_ppath i [] 0] n else n.

(** Everything before the main loop: the annotated graph, the number of
    required nodes, and the state the search starts from. *)
Record graph := mk_graph {
  g_xedges : list xedge;
  g_reqds : nat;
  g_start : state
}.

Definition annotate (nodes : list Node) (edges : list Edge.t)
    (required : list Node) : completion graph :=
  let '(xs, reqds) := annotate_nodes required nodes in
  match annotate_edges xs edges with
  | Thrown err => Thrown err
  | Returned (xs', xedges) =>
      Returned (mk_graph xedges reqds (mk_state (imap seed xs') [] 0))
  end.

(** [uniqueify] (lines 76-86). *)
Definition same_ends (a b : xedge) : bool :=
  Nat.eqb (XEdge.from a) (XEdge.from b) && Nat.eqb (XEdge.to a) (XEdge.to b).

Definition uniqueify_step (retval : list xedge) (e : xedge) : list xedge :=
  if existsb (fun r => same_ends r e) retval then retval else retval ++ [e].

Definition uniqueify (es : list xedge) : list xedge :=
  fold_left uniqueify_step es [].

(** ** One body of the [for] loop (lines 145-225) *)

(** How the scan of [p.outgoing] (lines 173-223) ended. *)
Inductive scan_end :=
| NoMerge                      (* the loop ran to [j = p.outgoing.length] *)
| TerminalMerge (dest : nat)   (* lines 183-201 *)
| CrossMerge (dest : nat)      (* lines 202-219 *)
| Fault.                       (* a property read on [null]/[undefined] *)

(** What one body of the [for] loop did. *)
Inductive outcome :=
| Skipped                      (* one of the [continue]s of lines 146-149 *)
| Requeued                     (* lines 156-160 *)
| Arrived (p : nat) (pth : list xedge) (m : scan_end)   (* lines 161-225 *)
| Crashed.

(** [x.in_permanent_web = true] through the reference [i]. *)
Definition mark_permanent (i : nat) (xs : list xnode) : list xnode :=
  alter set_permanent i xs.

(** [steps.forEach(function(step) { step.from.in_permanent_web = true; })] *)
Definition mark_sources (steps : list xedge) (xs : list xnode) : list xnode :=
  fold_left (fun xs step => mark_permanent (XEdge.from step) xs) steps xs.

(** Lines 190-200. *)
Definition terminal_merge (pth : list xedge) (out : xedge) (st : state)
  : state :=
  let soln' := soln st ++ pth ++ [out] in
  let xs1 := mark_sources pth (xnodes st) in
  let xs2 := mark_permanent (XEdge.to out) xs1 in
  let to_permanent :=
    match xs2 !! XEdge.to out with
    | Some t => in_permanent_web t
    | None => false
    end in
  mk_state xs2 soln'
    (if negb to_permanent then solved_reqds st + 2 else solved_reqds st + 1).

(** Lines 211-217. *)
Definition cross_merge (pth : list xedge) (w : witness_t) (out : xedge)
    (st : state) : state :=
  let new_edges := pth ++ wpath w ++ [out] in
  let soln' := soln st ++ new_edges in
  let xs1 := mark_sources new_edges (xnodes st) in
  let xs2 := mark_permanent (XEdge.to out) xs1 in
  mk_state xs2 soln' (solved_reqds st + 2).

(** The loop over [p.outgoing] (lines 173-223) for the searching node [n]
    with the arrived path [pth]. *)
Fixpoint scan (n : nat) (pth : list xedge) (outs : list xedge) (st : state)
  : state * scan_end :=
  match outs with
  | [] => (st, NoMerge)
  | out :: outs' =>
      match xnodes st !! XEdge.to out with
      | None => (st, Fault)
      | Some t =>
          if (reqd t && negb (Nat.eqb (XEdge.to out) n)) || in_permanent_web t
          then (terminal_merge pth out st, TerminalMerge (XEdge.to out))
          else if in_temporary_web t then
            match witness t with
            | None => (st, Fault)
            | Some w =>
                if Nat.eqb (wnode w) n then scan n pth outs' st
                else (cross_merge pth w out st, CrossMerge (XEdge.to out))
            end
          else
            let new_path := pth ++ [out] in
            let new_ppath :=
              mk_ppath (XEdge.to out) new_path (XEdge.weight out) in
            scan n pth outs' (with_xnodes (alter (fifo_push new_ppath) n) st)
      end
  end.

(** Lines 156-160: [Some] is the path pushed back with its endweight
    decremented, [None] means the path has arrived. *)
Definition requeue (pp : ppath) : option ppath :=
  if (1 <? endweight pp)%Z
  then Some (mk_ppath (point pp) (path pp) (endweight pp - 1))
  else None.

(** The body of the [for] loop for [n = xnodes[i]].  Lines 146-149 pass over
    a node that is not required, whose queue is empty, or that is in the
    permanent web; line 151 shifts the head of the queue; lines 156-160 push
    it back; lines 161-171 mark the point it arrived at and lines 173-223
    scan the edges out of that point. *)
Definition visit (i : nat) (st : state) : state * outcome :=
  match xnodes st !! i with
  | None => (st, Crashed)
  | Some n =>
      if negb (reqd n) then (st, Skipped)
      else
        match fifo n with
        | [] => (st, Skipped)
        | pp :: rest =>
            if in_permanent_web n then (st, Skipped)
            else
              let st1 := with_xnodes (alter (set_fifo rest) i) st in
              match requeue pp with
              | Some pp' =>
                  (with_xnodes (alter (fifo_push pp') i) st1, Requeued)
              | None =>
                  let p := point pp in
                  match xnodes st1 !! p with
                  | None => (st1, Crashed)
                  | Some xp =>
                      let w := mk_witness i (path pp) in
                      let st2 := with_xnodes (alter (set_arrival w) p) st1 in
                      match scan i (path pp) (outgoing xp) st2 with
                      | (st3, Fault) => (st3, Crashed)
                      | (st3, m) => (st3, Arrived p (path pp) m)
                      end
                  end
              end
        end
  end.

(** ** The loops (lines 123-232) *)

(** One executed body of the [for] loop: who searched, the state before,
    what happened, the state after.  The list of these records is ghost
    state: the search never reads it. *)
Record step := mk_step {
  who : nat;
  pre : state;
  act : outcome;
  post : state
}.

(** The [for] loop of lines 138-226 left: the state, the [fNonemptyFifo]
    flag, the value of [i], and whether a property read failed. *)
Record sweep_t := mk_sweep {
  sw_state : state;
  sw_trace : list step;
  fNonemptyFifo : bool;
  sw_i : nat;
  sw_crashed : bool
}.

(** [todo] is [xnodes.length - i]. *)
Fixpoint for_loop (todo i : nat) (fNonempty : bool) (st : state)
    (tr : list step) : sweep_t :=
  match todo with
  | 0 => mk_sweep st tr fNonempty i false
  | S todo' =>
      let r := visit i st in
      let tr' := tr ++ [mk_step i st r.2 r.1] in
      match r.2 with
      | Skipped => for_loop todo' (S i) fNonempty r.1 tr'
      | Requeued => for_loop todo' (S i) true r.1 tr'
      | Arrived _ _ NoMerge => for_loop todo' (S i) true r.1 tr'
      | Arrived _ _ _ => mk_sweep r.1 tr' true i false   (* line 224: break *)
      | Crashed => mk_sweep r.1 tr' true i true
      end
  end.

Definition sweep (st : state) (tr : list step) : sweep_t :=
  for_loop (length (xnodes st)) 0 false st tr.

(** Line 227 negated: the [while (true)] loop goes round again. *)
Definition inner_again (r : sweep_t) : bool :=
  negb (sw_crashed r) &&
  negb (negb (fNonemptyFifo r) || (sw_i r <? length (xnodes (sw_state r)))).

(** Line 230 negated. *)
Definition outer_again (r : sweep_t) : bool :=
  negb (sw_crashed r) && fNonemptyFifo r.

Record result := mk_result {
  final : state;
  trace : list step;
  crashed : bool
}.

(** The two [while] loops with a bound on the number of iterations. *)
Fixpoint inner_fuel (fuel : nat) (st : state) (tr : list step)
  : option sweep_t :=
  match fuel with
  | 0 => None
  | S fuel' =>
      let r := sweep st tr in
      if inner_again r then inner_fuel fuel' (sw_state r) (sw_trace r)
      else Some r
  end.

Fixpoint outer_fuel (fuel : nat) (reqds : nat) (st : state) (tr : list step)
  : option result :=
  match fuel with
  | 0 => None
  | S fuel' =>
      if solved_reqds st <? reqds then
        match inner_fuel fuel' st tr with
        | None => None
        | Some r =>
            if outer_again r
            then outer_fuel fuel' reqds (sw_state r) (sw_trace r)
            else Some (mk_result (sw_state r) (sw_trace r) (sw_crashed r))
        end
      else Some (mk_result st tr false)
  end.

(** * The vocabulary of the properties *)

(** ** Termination measure

    Lexicographically: the number of nodes no search has reached, the number
    of queued paths whose point has been reached, the number of queue turns
    the queued paths still need. *)

(** The [in_temporary_web] flags and the queues of a store. *)
Definition temps (xs : list xnode) : list bool := in_temporary_web <$> xs.
Definition fifos (xs : list xnode) : list (list ppath) := fifo <$> xs.

Definition unreached (b : bool) : nat := if b then 0 else 1.

Definition ripe (ts : list bool) (pp : ppath) : nat :=
  match ts !! point pp with Some true => 1 | _ => 0 end.

Definition turns (pp : ppath) : nat := Z.to_nat (Z.max 1 (endweight pp)).

Definition measure_of (ts : list bool) (qs : list (list ppath))
  : nat * nat * nat :=
  (sum_list_with unreached ts,
   sum_list_with (sum_list_with (ripe ts)) qs,
   sum_list_with (sum_list_with turns) qs).

Definition measure (st : state) : nat * nat * nat :=
  measure_of (temps (xnodes st)) (fifos (xnodes st)).

Definition lt3 (a b : nat * nat * nat) : Prop :=
  a.1.1 < b.1.1 \/
  (a.1.1 = b.1.1 /\ (a.1.2 < b.1.2 \/ (a.1.2 = b.1.2 /\ a.2 < b.2))).

Definition le3 (a b : nat * nat * nat) : Prop := a = b \/ lt3 a b.

(** ** Executions as chains of loop bodies *)

(** [steps st0 tr st]: from [st0], the bodies recorded in [tr] were executed
    one after the other and left [st]. *)
Inductive steps (st0 : state) : list step -> state -> Prop :=
| steps_nil : steps st0 [] st0
| steps_snoc tr st i :
    steps st0 tr st ->
    i < length (xnodes st) ->
    steps st0 (tr ++ [mk_step i st (visit i st).2 (visit i st).1])
      (visit i st).1.

(** What no body of the loop ever writes. *)
Definition static (x : xnode) : Node * bool * list xedge * list xedge :=
  (node x, reqd x, outgoing x, incoming x).

Definition statics (xs : list xnode)
  : list (Node * bool * list xedge * list xedge) := static <$> xs.

(** Every recorded body is what [visit] does on the recorded state. *)
Definition faithful (s : step) : Prop :=
  who s < length (xnodes (pre s)) /\
  act s = (visit (who s) (pre s)).2 /\
  post s = (visit (who s) (pre s)).1.

(** ** Well-formed states

    Every reference held in the store points into the store, every edge on
    a path, in a witness or in the solution satisfies [good], and a node in
    a temporary web has a witness.  [good] is whatever is known of the
    annotated edges of the graph being searched. *)
Section WellFormedness.
Variable good : xedge -> Prop.
Variable N : nat.

Definition ppath_ok (pp : ppath) : Prop :=
  point pp < N /\ Forall good (path pp).

Definition xnode_ok (x : xnode) : Prop :=
  Forall good (outgoing x) /\
  Forall ppath_ok (fifo x) /\
  (forall w, witness x = Some w -> Forall good (wpath w)) /\
  (in_temporary_web x = true -> is_Some (witness x)).

Definition wf (st : state) : Prop :=
  length (xnodes st) = N /\
  Forall xnode_ok (xnodes st) /\
  Forall good (soln st).
End WellFormedness.

(** ** What the builder builds *)

(** The place of the first [n] in [nodes]. *)
Definition index_of (nodes : list Node) (n : Node) : option nat :=
  fst <$> list_find (fun m => m = n) nodes.

(** The annotated copy of a caller's edge, when both ends are nodes. *)
Definition wrap (nodes : list Node) (ed : Edge.t) : option xedge :=
  match index_of nodes (Edge.from ed), index_of nodes (Edge.to ed) with
  | Some f, Some t => Some (XEdge.mk ed f t (Edge.weight ed) false false)
  | _, _ => None
  end.

(** An annotated edge of the graph built from [nodes] and [edges]. *)
Definition built (nodes : list Node) (edges : list Edge.t) (e : xedge) : Prop :=
  XEdge.edge e ∈ edges /\ wrap nodes (XEdge.edge e) = Some e.

(** A node as the builder leaves it, before the queues are seeded. *)
Definition pristine (nodes : list Node) (edges : list Edge.t) (x : xnode)
  : Prop :=
  Forall (built nodes edges) (outgoing x) /\
  fifo x = [] /\ witness x = None /\
  in_temporary_web x = false /\ in_permanent_web x = false.

(** The state the search starts from. *)
Definition seeded (i : nat) (x : xnode) : Prop :=
  in_temporary_web x = false /\ in_permanent_web x = false /\
  witness x = None /\
  fifo x = if reqd x then [mk_ppath i [] 0] else [].

(** ** The solution normalizer *)

Definition xends (e : xedge) : nat * nat := (XEdge.from e, XEdge.to e).

(** ** Witnesses and the permanent web *)

Definition witnesses (xs : list xnode) : list (option witness_t) :=
  witness <$> xs.

(** [p.witness], read in a state. *)
Definition witness_at (st : state) (p : nat) : option witness_t :=
  xnodes st !! p ≫= witness.

(** The claim of C8 on a trace: no step changes the owner of a recorded
    witness. *)
Definition owner_kept (tr : list step) : Prop :=
  forall s p w w',
    s ∈ tr ->
    witness_at (pre s) p = Some w -> witness_at (post s) p = Some w' ->
    wnode w' = wnode w.

(** [q.in_permanent_web] is set. *)
Definition permanent_at (st : state) (q : nat) : Prop :=
  exists x, xnodes st !! q = Some x /\ in_permanent_web x = true.

(** An update of a node that does not clear the flag. *)
Definition keeps_permanent (g : xnode -> xnode) : Prop :=
  forall x, in_permanent_web x = true -> in_permanent_web (g x) = true.

(** The claim of C9 on a trace: no path arrives at a node of the permanent
    web. *)
Definition heads_fresh (tr : list step) : Prop :=
  forall s p pth m,
    s ∈ tr -> act s = Arrived p pth m -> ~ permanent_at (pre s) p.

(** ** Queues *)











(** ** Connectivity *)

(** Two caller's nodes joined by one of [es], in either direction. *)
Definition adjacent (es : list Edge.t) (u v : Node) : Prop :=
  exists e, e ∈ es /\
    ((Edge.from e = u /\ Edge.to e = v) \/ (Edge.from e = v /\ Edge.to e = u)).

(** Reachable over [es], the edges taken as undirected. *)
Definition ureach (es : list Edge.t) : Node -> Node -> Prop :=
  rtc (adjacent es).

(** The same on annotated edges and annotated nodes. *)
Definition xadjacent (es : list xedge) (u v : nat) : Prop :=
  exists e, e ∈ es /\
    ((XEdge.from e = u /\ XEdge.to e = v) \/
     (XEdge.from e = v /\ XEdge.to e = u)).

Definition xreach (es : list xedge) : nat -> nat -> Prop :=
  rtc (xadjacent es).

(** An end of one of [es]. *)
Definition endpoint (es : list xedge) (u : nat) : Prop :=
  exists e, e ∈ es /\ (XEdge.from e = u \/ XEdge.to e = u).

(** Modelled from the spec: the Connectivity Repair collaborator ([connect]
    of [./connect.js]) is not among the sources.  "An already-connected
    solution" is one whose edges all lie in one component. *)
Definition soln_connected (es : list xedge) : Prop :=
  forall u v, endpoint es u -> endpoint es v -> xreach es u v.

(** Modelled from the spec: the collaborator is "idempotent on an
    already-connected solution (returns it unchanged)". *)
Definition repair_idempotent
    (connect : list xedge -> list xedge -> list xnode -> list xedge) : Prop :=
  forall soln xedges xnodes,
    soln_connected soln -> connect soln xedges xnodes = soln.

(** Modelled from the spec: the collaborator "never removes edges already
    present". *)
Definition repair_keeps
    (connect : list xedge -> list xedge -> list xnode -> list xedge) : Prop :=
  forall soln xedges xnodes e, e ∈ soln -> e ∈ connect soln xedges xnodes.

(** Modelled from the spec: all that "the core requires" of the
    collaborator. *)
Definition repair_contract
    (connect : list xedge -> list xedge -> list xnode -> list xedge) : Prop :=
  repair_idempotent connect /\ repair_keeps connect.


(** A repair that finds nothing to add. *)
Definition connect_id (soln xedges : list xedge) (xnodes : list xnode)
  : list xedge := soln.

(** ** Inputs and outputs *)





(** An edge with an end that is not in [nodes]. *)
Definition dangling_edge (nodes : list Node) (edges : list Edge.t) : Prop :=
  exists e, e ∈ edges /\ (Edge.from e ∉ nodes \/ Edge.to e ∉ nodes).

(** An entry of [required] that is not in [nodes]. *)
Definition stray_required (nodes required : list Node) : Prop :=
  exists r, r ∈ required /\ r ∉ nodes.

(** ** Inputs of the examples *)

(** Two searches, from nodes 0 and 1, reach node 2 over edges of weights 5
    and 2. *)
Definition late_nodes : list Node := [0; 1; 2].
Definition late_edges : list Edge.t := [Edge.mk 0 2 5 0; Edge.mk 1 2 2 0].
Definition late_required : list Node := [0; 1].

(** Three searches, from nodes 0, 1 and 2; the searches of 1 and 2 merge at
    node 3 while the search of 0 still has a path to node 3 in its queue. *)
Definition meet_nodes : list Node := [0; 1; 2; 3; 4].
Definition meet_edges : list Edge.t :=
  [Edge.mk 0 3 5 0; Edge.mk 1 3 1 0; Edge.mk 2 4 1 0; Edge.mk 4 3 1 0].
Definition meet_required : list Node := [0; 1; 2].

(** Four required nodes on a line, 0 - 1 - 2 - 3, every edge in both
    directions and of weight 1. *)
Definition line_nodes : list Node := [0; 1; 2; 3].
Definition line_edges : list Edge.t :=
  [Edge.mk 0 1 1 0; Edge.mk 1 0 1 0; Edge.mk 2 3 1 0; Edge.mk 3 2 1 0;
   Edge.mk 1 2 1 0; Edge.mk 2 1 1 0].
Definition line_required : list Node := [0; 1; 2; 3].

(** ** The wiring of the built graph *)

(** The [outgoing] and [incoming] lists of the node at place [i], for the
    annotated edges [xes] built so far. *)
Definition wired (xes : list xedge) (i : nat) (x : xnode) : Prop :=
  outgoing x = filter (fun e => XEdge.from e = i) xes /\
  incoming x = filter (fun e => XEdge.to e = i) xes.


(** ** How a body of the loop went *)

(** What the scan reads of a node (lines 183, 202 and 209). *)
Definition flags (x : xnode) : bool * bool * bool * option witness_t :=
  (reqd x, in_permanent_web x, in_temporary_web x, witness x).

(** The same, read through the reference [d]. *)
Definition flags_at (st : state) (d : nat)
  : option (bool * bool * bool * option witness_t) :=
  flags <$> xnodes st !! d.

(** The path pushed for the edge [out] (lines 220-221). *)
Definition child (pth : list xedge) (out : xedge) : ppath :=
  mk_ppath (XEdge.to out) (pth ++ [out]) (XEdge.weight out).

(** The pushes of one scan on the queue of [n] (line 222). *)
Definition push_all (n : nat) (ps : list ppath) (st : state) : state :=
  with_xnodes (alter (fun x => set_fifo (fifo x ++ ps) x) n) st.

(** Lines 151 and 170-171: the head of the queue of [i] is shifted and the
    path [pth] arrives at [p]. *)
Definition arrive (i p : nat) (pth : list xedge) (rest : list ppath)
    (st : state) : state :=
  with_xnodes (alter (set_arrival (mk_witness i pth)) p)
    (with_xnodes (alter (set_fifo rest) i) st).

(** The test of line 183 succeeds on the edge [out]. *)
Definition solves (n : nat) (st : state) (out : xedge) : Prop :=
  exists r p t w, flags_at st (XEdge.to out) = Some (r, p, t, w) /\
    ((r = true /\ XEdge.to out <> n) \/ p = true).

(** The tests of lines 183 and 202 fail: the edge [out] is pushed. *)
Definition fresh (n : nat) (st : state) (out : xedge) : Prop :=
  exists r w, flags_at st (XEdge.to out) = Some (r, false, false, w) /\
    (r = true -> XEdge.to out = n).

(** Line 209: the edge [out] leads into the web of the searching node. *)
Definition own_web (n : nat) (st : state) (out : xedge) : Prop :=
  exists r w, flags_at st (XEdge.to out) = Some (r, false, true, Some w) /\
    (r = true -> XEdge.to out = n) /\ wnode w = n.

(** Lines 202 and 209: the edge [out] leads into the web of another
    searching node, whose witness is [w]. *)
Definition crosses (n : nat) (st : state) (out : xedge) (w : witness_t)
  : Prop :=
  exists r, flags_at st (XEdge.to out) = Some (r, false, true, Some w) /\
    (r = true -> XEdge.to out = n) /\ wnode w <> n.

(** How a scan went: which edges it pushed, and what it ended with. *)
Definition scanned (n : nat) (pth outs : list xedge) (st : state)
    (m : scan_end) (st' : state) : Prop :=
  exists pushed_outs,
    pushed_outs `sublist_of` outs /\
    Forall (fresh n st) pushed_outs /\
    let st1 := push_all n (child pth <$> pushed_outs) st in
    match m with
    | NoMerge =>
        st' = st1 /\
        Forall (fun out => own_web n st out \/ out ∈ pushed_outs) outs
    | TerminalMerge d =>
        exists out, out ∈ outs /\ d = XEdge.to out /\ solves n st out /\
          st' = terminal_merge pth out st1
    | CrossMerge d =>
        exists out w, out ∈ outs /\ d = XEdge.to out /\ crosses n st out w /\
          st' = cross_merge pth w out st1
    | Fault => True
    end.

(** A body of the loop that was not skipped: the node [n] it ran for, the
    path [pp] it shifted and the rest of the queue. *)
Definition shifted (i : nat) (st : state) (n : xnode) (pp : ppath)
    (rest : list ppath) : Prop :=
  xnodes st !! i = Some n /\ reqd n = true /\ in_permanent_web n = false /\
  fifo n = pp :: rest.

(** ** Paths as walks *)

(** [pth] leads from [a] to [b], each edge starting where the one before
    ends. *)
Fixpoint chain (a : nat) (pth : list xedge) (b : nat) : Prop :=
  match pth with
  | [] => a = b
  | e :: pth' => XEdge.from e = a /\ chain (XEdge.to e) pth' b
  end.

(** The same on the caller's edges and nodes. *)
Fixpoint walk (a : Node) (es : list Edge.t) (b : Node) : Prop :=
  match es with
  | [] => a = b
  | e :: es' => Edge.from e = a /\ walk (Edge.to e) es' b
  end.

(** [xnodes[i].reqd] is set. *)
Definition reqd_in (xs : list xnode) (i : nat) : Prop :=
  exists x, xs !! i = Some x /\ reqd x = true.

(** Every edge in an [outgoing] list starts at the node that holds it. *)
Definition tidy (xs : list xnode) : Prop :=
  forall p x e, xs !! p = Some x -> e ∈ outgoing x -> XEdge.from e = p.

(** Queues belong to required nodes and hold paths from their node to the
    point of the path. *)
Definition queues_ok (xs : list xnode) : Prop :=
  forall i x pp, xs !! i = Some x -> pp ∈ fifo x ->
    reqd x = true /\ chain i (path pp) (point pp).

(** A witness on [q] names a required node and holds a path from that node
    to [q]. *)
Definition witnesses_ok (xs : list xnode) : Prop :=
  forall q x w, xs !! q = Some x -> witness x = Some w ->
    reqd_in xs (wnode w) /\ chain (wnode w) (wpath w) q.

(** All three. *)
Definition paths_ok (xs : list xnode) : Prop :=
  tidy xs /\ queues_ok xs /\ witnesses_ok xs.

(** ** Solutions that hang on the required nodes *)

(** Every edge of the solution is joined to a required node by edges of the
    solution, and every node of the permanent web is an end of an edge of
    the solution. *)
Definition tethered (st : state) : Prop :=
  (forall e, e ∈ soln st ->
     exists r, reqd_in (xnodes st) r /\ xreach (soln st) r (XEdge.from e)) /\
  (forall q, permanent_at st q -> endpoint (soln st) q).

(** ** Searches that have not merged *)


(** ** Counting and reaching *)

(** What a body of the loop adds to [solved_reqds]. *)
Definition solved_by (s : step) : nat :=
  match act s with
  | Arrived _ _ (TerminalMerge _) => 1
  | Arrived _ _ (CrossMerge _) => 2
  | _ => 0
  end.

(** Some path has arrived at [q]. *)
Definition arrived_at (q : nat) (s : step) : Prop :=
  exists pth m, act s = Arrived q pth m.

(** ** The frontier of one search *)








(** ** Paths and required nodes *)

(** No queued path leads through a required node other than the one that
    owns the queue. *)
Definition avoids (xs : list xnode) : Prop :=
  forall i x pp, xs !! i = Some x -> pp ∈ fifo x ->
    Forall (fun e => reqd_in xs (XEdge.to e) -> XEdge.to e = i) (path pp).

(** ** Rounds of the [for] loop *)

(** The body ended a scan with a merge: the [break] of line 224 is taken. *)
Definition merged (s : step) : bool :=
  match act s with
  | Arrived _ _ (TerminalMerge _) | Arrived _ _ (CrossMerge _) => true
  | _ => false
  end.

(** One round of the [for] loop over [N] nodes: the bodies for the nodes 0,
    1, 2, ... in this order, up to the last node or up to the first body
    that merges. *)
Definition round (N : nat) (r : list step) : Prop :=
  who <$> r = seq 0 (length r) /\
  ((length r = N /\ Forall (fun s => merged s = false) r) \/
   (exists r' s, r = r' ++ [s] /\ length r <= N /\
      Forall (fun s => merged s = false) r' /\ merged s = true)).

(** Rounds, one after the other. *)
Inductive rounds (N : nat) : list step -> Prop :=
| rounds_nil : rounds N []
| rounds_app tr r : rounds N tr -> round N r -> rounds N (tr ++ r).

(** * Termination, and the loops as total functions *)

Lemma lt3_wf : well_founded lt3.
Proof.
  apply (wf_incl _ _ (slexprod _ _ (slexprod _ _ lt lt) lt)).
  - intros [[a1 a2] a3] [[b1 b2] b3] H. unfold lt3 in H. simpl in H.
    destruct H as [H | [-> [H | [-> H]]]].
    + apply left_slex. apply left_slex. exact H.
    + apply left_slex. apply right_slex. exact H.
    + apply right_slex. exact H.
  - apply wf_slexprod; [apply wf_slexprod|]; apply lt_wf.
Qed.

Lemma lt3_le3_trans a b c : lt3 a b -> le3 b c -> lt3 a c.
Proof.
  intros H [-> | H']; [exact H|].
  destruct a as [[a1 a2] a3], b as [[b1 b2] b3], c as [[c1 c2] c3].
  unfold lt3 in *. simpl in *. lia.
Qed.

Lemma le3_lt3_trans a b c : le3 a b -> lt3 b c -> lt3 a c.
Proof.
  intros [-> | H] H'; [exact H'|].
  destruct a as [[a1 a2] a3], b as [[b1 b2] b3], c as [[c1 c2] c3].
  unfold lt3 in *. simpl in *. lia.
Qed.

Lemma le3_trans a b c : le3 a b -> le3 b c -> le3 a c.
Proof.
  intros [-> | H] H'; [exact H'|]. right. eapply lt3_le3_trans; eauto.
Qed.

(** *** Updates of one store cell, seen through a projection *)

Lemma fmap_alter_same {A B} (f : A -> B) (g : A -> A) i (l : list A) :
  (forall x, f (g x) = f x) -> f <$> alter g i l = f <$> l.
Proof.
  intros H. rewrite (list_fmap_alter f g id).
  - apply list_alter_id. done.
  - apply Forall_forall. intros x _. apply H.
Qed.

Lemma alter_absent {A} (g : A -> A) i (l : list A) :
  l !! i = None -> alter g i l = l.
Proof.
  intros H. apply list_eq. intros j. rewrite list_lookup_alter.
  case_decide; [subst; by rewrite H|done].
Qed.

Lemma sum_list_with_alter {A} (F : A -> nat) (g : A -> A) i (l : list A) x :
  l !! i = Some x ->
  sum_list_with F (alter g i l) + F x = sum_list_with F l + F (g x).
Proof.
  revert i. induction l as [|y l IH]; intros [|i] H; simplify_eq/=; [lia|].
  specialize (IH _ H). lia.
Qed.

Lemma temps_set_permanent i xs : temps (alter set_permanent i xs) = temps xs.
Proof. by apply fmap_alter_same. Qed.

Lemma fifos_set_permanent i xs : fifos (alter set_permanent i xs) = fifos xs.
Proof. by apply fmap_alter_same. Qed.

Lemma temps_mark_sources steps xs : temps (mark_sources steps xs) = temps xs.
Proof.
  revert xs. induction steps as [|e steps IH]; intros xs; [done|].
  simpl. rewrite IH. apply temps_set_permanent.
Qed.

Lemma fifos_mark_sources steps xs : fifos (mark_sources steps xs) = fifos xs.
Proof.
  revert xs. induction steps as [|e steps IH]; intros xs; [done|].
  simpl. rewrite IH. apply fifos_set_permanent.
Qed.

Lemma temps_set_fifo q i xs : temps (alter (set_fifo q) i xs) = temps xs.
Proof. by apply fmap_alter_same. Qed.

Lemma temps_fifo_push pp i xs : temps (alter (fifo_push pp) i xs) = temps xs.
Proof. by apply fmap_alter_same. Qed.

Lemma fifos_set_arrival w p xs : fifos (alter (set_arrival w) p xs) = fifos xs.
Proof. by apply fmap_alter_same. Qed.

Lemma temps_set_arrival w p xs :
  temps (alter (set_arrival w) p xs) = <[p := true]> (temps xs).
Proof.
  unfold temps. rewrite (list_fmap_alter _ _ (fun _ => true)).
  - by rewrite list_insert_alter.
  - by apply Forall_forall.
Qed.

Lemma fifos_set_fifo q i xs :
  fifos (alter (set_fifo q) i xs) = alter (fun _ => q) i (fifos xs).
Proof. unfold fifos. apply list_fmap_alter. by apply Forall_forall. Qed.

Lemma fifos_fifo_push pp i xs :
  fifos (alter (fifo_push pp) i xs) = alter (fun q => q ++ [pp]) i (fifos xs).
Proof. unfold fifos. apply list_fmap_alter. by apply Forall_forall. Qed.

(** *** The scan changes neither the reached nodes nor the ripe paths *)

Lemma scan_measure n pth outs st :
  temps (xnodes (scan n pth outs st).1) = temps (xnodes st) /\
  sum_list_with (sum_list_with (ripe (temps (xnodes st))))
    (fifos (xnodes (scan n pth outs st).1)) =
  sum_list_with (sum_list_with (ripe (temps (xnodes st)))) (fifos (xnodes st)).
Proof.
  revert st. induction outs as [|out outs IH]; intros st; simpl; [done|].
  destruct (xnodes st !! XEdge.to out) as [t|] eqn:Ht; [|done].
  destruct (reqd t && negb (XEdge.to out =? n) || in_permanent_web t).
  { simpl. unfold mark_permanent.
    by rewrite temps_set_permanent, fifos_set_permanent,
      temps_mark_sources, fifos_mark_sources. }
  destruct (in_temporary_web t) eqn:Htemp.
  { destruct (witness t) as [w|]; [|done].
    destruct (wnode w =? n); [apply IH|].
    simpl. unfold mark_permanent.
    by rewrite temps_set_permanent, fifos_set_permanent,
      temps_mark_sources, fifos_mark_sources. }
  set (pp := mk_ppath _ _ _).
  destruct (IH (with_xnodes (alter (fifo_push pp) n) st)) as [IH1 IH2].
  simpl in IH1, IH2. rewrite temps_fifo_push in IH1, IH2.
  split; [exact IH1|]. rewrite IH2, fifos_fifo_push.
  destruct (fifos (xnodes st) !! n) as [q|] eqn:Hq;
    [|by rewrite alter_absent].
  pose proof (sum_list_with_alter
    (sum_list_with (ripe (temps (xnodes st)))) (fun q => q ++ [pp]) _ _ _ Hq) as E.
  cbv beta in E. rewrite sum_list_with_app in E. simpl in E.
  assert (ripe (temps (xnodes st)) pp = 0) as R.
  { unfold ripe, temps. simpl. rewrite list_lookup_fmap, Ht. simpl.
    by rewrite Htemp. }
  lia.
Qed.

(** *** A body of the [for] loop that is not skipped decreases the measure *)

Lemma visit_measure i st :
  match (visit i st).2 with
  | Skipped => (visit i st).1 = st
  | Crashed => True
  | _ => lt3 (measure (visit i st).1) (measure st)
  end.
Proof.
  unfold visit.
  destruct (xnodes st !! i) as [n|] eqn:Hn; [|done].
  destruct (reqd n); [|done]. simpl.
  destruct (fifo n) as [|pp rest] eqn:Hq; [done|].
  destruct (in_permanent_web n); [done|].
  assert (fifos (xnodes st) !! i = Some (pp :: rest)) as Hqi.
  { unfold fifos. by rewrite list_lookup_fmap, Hn, <- Hq. }
  unfold requeue. destruct (1 <? endweight pp)%Z eqn:Hw.
  - (* pushed back *)
    simpl. unfold measure, measure_of. simpl.
    rewrite temps_fifo_push, temps_set_fifo, fifos_fifo_push, fifos_set_fifo.
    rewrite list_alter_alter_eq.
    pose proof (sum_list_with_alter
      (sum_list_with (ripe (temps (xnodes st))))
      ((fun q => q ++ [mk_ppath (point pp) (path pp) (endweight pp - 1)]) ∘
         (fun _ => rest)) _ _ _ Hqi) as E2.
    pose proof (sum_list_with_alter (sum_list_with turns)
      ((fun q => q ++ [mk_ppath (point pp) (path pp) (endweight pp - 1)]) ∘
         (fun _ => rest)) _ _ _ Hqi) as E3.
    simpl in E2, E3. rewrite sum_list_with_app in E2, E3. simpl in E2, E3.
    apply Z.ltb_lt in Hw.
    assert (turns (mk_ppath (point pp) (path pp) (endweight pp - 1)) + 1
            = turns pp) as T by (unfold turns; simpl; lia).
    assert (ripe (temps (xnodes st))
              (mk_ppath (point pp) (path pp) (endweight pp - 1))
            = ripe (temps (xnodes st)) pp) as R by done.
    unfold lt3. simpl. lia.
  - (* arrived *)
    simpl.
    destruct (alter (set_fifo rest) i (xnodes st) !! point pp) as [xp|] eqn:Hp;
      [|done].
    set (st2 := with_xnodes _ _).
    pose proof (scan_measure i (path pp) (outgoing xp) st2) as [S1 S2].
    assert (lt3 (measure (scan i (path pp) (outgoing xp) st2).1) (measure st))
      as Hlt.
    { unfold measure, measure_of. rewrite S1, S2. subst st2. simpl.
      rewrite temps_set_arrival, fifos_set_arrival, temps_set_fifo,
        fifos_set_fifo.
      pose proof (sum_list_with_alter (sum_list_with turns)
        (fun _ => rest) _ _ _ Hqi) as E3. simpl in E3.
      assert (temps (xnodes st) !! point pp = Some (in_temporary_web xp)) as Ht.
      { rewrite <- (temps_set_fifo rest i). unfold temps.
        by rewrite list_lookup_fmap, Hp. }
      destruct (in_temporary_web xp).
      + rewrite (list_insert_id _ _ _ Ht).
        pose proof (sum_list_with_alter
          (sum_list_with (ripe (temps (xnodes st))))
          (fun _ => rest) _ _ _ Hqi) as E2. simpl in E2.
        assert (ripe (temps (xnodes st)) pp = 1) as R
          by (unfold ripe; by rewrite Ht).
        unfold lt3. simpl. lia.
      + rewrite list_insert_alter.
        pose proof (sum_list_with_alter unreached (fun _ => true) _ _ _ Ht)
          as E1. simpl in E1.
        unfold lt3. simpl. lia. }
    destruct (scan i (path pp) (outgoing xp) st2) as [st3 []]; done.
Qed.

Lemma for_loop_measure todo i f st tr :
  sw_crashed (for_loop todo i f st tr) = false ->
  le3 (measure (sw_state (for_loop todo i f st tr))) (measure st) /\
  (f = false -> fNonemptyFifo (for_loop todo i f st tr) = true ->
   lt3 (measure (sw_state (for_loop todo i f st tr))) (measure st)).
Proof.
  revert i f st tr. induction todo as [|todo IH]; intros i f st tr; simpl.
  { intros _. split; [by left|congruence]. }
  pose proof (visit_measure i st) as V.
  destruct (visit i st) as [st' o]. simpl in *.
  destruct o as [| |p pth m|].
  - subst st'. apply IH.
  - intros Hc. destruct (IH _ true _ _ Hc) as [L _].
    split; [right|intros _ _]; eapply le3_lt3_trans; eauto.
  - destruct m; simpl.
    + intros Hc. destruct (IH _ true _ _ Hc) as [L _].
      split; [right|intros _ _]; eapply le3_lt3_trans; eauto.
    + intros _. split; [by right|done].
    + intros _. split; [by right|done].
    + intros _. split; [by right|done].
  - done.
Qed.

Lemma sweep_decreases st tr :
  inner_again (sweep st tr) = true ->
  lt3 (measure (sw_state (sweep st tr))) (measure st).
Proof.
  unfold inner_again, sweep. intros H.
  apply andb_prop in H as [Hc H]. apply negb_true_iff in Hc, H.
  apply orb_false_iff in H as [H _]. apply negb_false_iff in H.
  by apply (for_loop_measure _ _ _ _ _ Hc).
Qed.

(** ** The loops as total functions *)

(** The [while (true)] loop of lines 129-229. *)
Fixpoint inner_acc (st : state) (tr : list step) (a : Acc lt3 (measure st))
    {struct a} : sweep_t :=
  match Sumbool.sumbool_of_bool (inner_again (sweep st tr)) with
  | left H =>
      inner_acc (sw_state (sweep st tr)) (sw_trace (sweep st tr))
        (Acc_inv a (sweep_decreases st tr H))
  | right _ => sweep st tr
  end.

Definition inner (st : state) (tr : list step) : sweep_t :=
  inner_acc st tr (lt3_wf (measure st)).

Lemma inner_acc_irrel st tr (a a' : Acc lt3 (measure st)) :
  inner_acc st tr a = inner_acc st tr a'.
Proof.
  revert tr a a'.
  cut (forall m, Acc lt3 m -> forall st, measure st = m ->
         forall tr a a', inner_acc st tr a = inner_acc st tr a').
  { intros C. by apply (C _ (lt3_wf (measure st))). }
  clear st. induction 1 as [m _ IH]. intros st <- tr [fa] [fa']. simpl.
  destruct (Sumbool.sumbool_of_bool (inner_again (sweep st tr))) as [H|H];
    [|done].
  by apply (IH _ (sweep_decreases st tr H)).
Qed.

Lemma inner_eq st tr :
  inner st tr =
  if inner_again (sweep st tr)
  then inner (sw_state (sweep st tr)) (sw_trace (sweep st tr))
  else sweep st tr.
Proof.
  unfold inner at 1. destruct (lt3_wf (measure st)) as [fa]. simpl.
  destruct (Sumbool.sumbool_of_bool (inner_again (sweep st tr))) as [H|H].
  - etransitivity; [apply inner_acc_irrel|]. by rewrite H.
  - by rewrite H.
Qed.

Lemma inner_measure st tr :
  outer_again (inner st tr) = true ->
  lt3 (measure (sw_state (inner st tr))) (measure st).
Proof.
  revert tr.
  cut (forall m, Acc lt3 m -> forall st, measure st = m ->
         forall tr, outer_again (inner st tr) = true ->
                    lt3 (measure (sw_state (inner st tr))) (measure st)).
  { intros C. by apply (C _ (lt3_wf (measure st))). }
  clear st. induction 1 as [m _ IH]. intros st <- tr. rewrite inner_eq.
  destruct (inner_again (sweep st tr)) eqn:Ha.
  - intros Ho. pose proof (sweep_decreases st tr Ha) as D.
    eapply lt3_le3_trans; [|right; exact D]. by eapply IH.
  - unfold outer_again, sweep. intros H.
    apply andb_prop in H as [Hc H]. apply negb_true_iff in Hc.
    by apply (for_loop_measure _ _ _ _ _ Hc).
Qed.

(** The [while (solved_reqds < reqds)] loop of lines 123-232. *)
Fixpoint outer_acc (reqds : nat) (st : state) (tr : list step)
    (a : Acc lt3 (measure st)) {struct a} : result :=
  if solved_reqds st <? reqds then
    match Sumbool.sumbool_of_bool (outer_again (inner st tr)) with
    | left H =>
        outer_acc reqds (sw_state (inner st tr)) (sw_trace (inner st tr))
          (Acc_inv a (inner_measure st tr H))
    | right _ =>
        mk_result (sw_state (inner st tr)) (sw_trace (inner st tr))
          (sw_crashed (inner st tr))
    end
  else mk_result st tr false.

Definition outer (reqds : nat) (st : state) (tr : list step) : result :=
  outer_acc reqds st tr (lt3_wf (measure st)).

(** The search of a built graph, from line 95 to line 232. *)
Definition search (g : graph) : result := outer (g_reqds g) (g_start g) [].

(** ** The whole function (lines 15-250)

    [connect] comes from [./connect.js], which is not part of the sources
    at hand; it is a parameter of the function. *)
Section Steiner.
Variable connect : list xedge -> list xedge -> list xnode -> list xedge.

Definition steiner (nodes : list Node) (edges : list Edge.t)
    (required : list Node) : completion (list Edge.t) :=
  match annotate nodes edges required with
  | Thrown err => Thrown err
  | Returned g =>
      let r := search g in
      if crashed r then Thrown TypeError
      else
        let soln' := connect (soln (final r)) (g_xedges g) (xnodes (final r)) in
        Returned (XEdge.edge <$> uniqueify soln')
  end.
End Steiner.

(** The steps of the search for an input; none when the builder throws. *)
Definition search_trace (nodes : list Node) (edges : list Edge.t)
    (required : list Node) : list step :=
  match annotate nodes edges required with
  | Thrown _ => []
  | Returned g => trace (search g)
  end.

(** The same with the bounded loops: [None] when the bound is too small. *)
Definition search_fuel (fuel : nat) (g : graph) : option result :=
  outer_fuel fuel (g_reqds g) (g_start g) [].

Definition search_trace_fuel (fuel : nat) (nodes : list Node)
    (edges : list Edge.t) (required : list Node) : option (list step) :=
  match annotate nodes edges required with
  | Thrown _ => Some []
  | Returned g => trace <$> search_fuel fuel g
  end.

Definition steiner_fuel
    (connect : list xedge -> list xedge -> list xnode -> list xedge)
    (fuel : nat) (nodes : list Node)
    (edges : list Edge.t) (required : list Node)
  : option (completion (list Edge.t)) :=
  match annotate nodes edges required with
  | Thrown err => Some (Thrown err)
  | Returned g =>
      match search_fuel fuel g with
      | None => None
      | Some r =>
          Some (if crashed r then Thrown TypeError
                else Returned (XEdge.edge <$> uniqueify
                       (connect (soln (final r)) (g_xedges g)
                          (xnodes (final r)))))
      end
  end.

(** * Lemmas and theorems *)

(** ** The equations of the loops *)

Lemma outer_acc_irrel reqds st tr (a a' : Acc lt3 (measure st)) :
  outer_acc reqds st tr a = outer_acc reqds st tr a'.
Proof.
  revert tr a a'.
  cut (forall m, Acc lt3 m -> forall st, measure st = m ->
         forall tr a a', outer_acc reqds st tr a = outer_acc reqds st tr a').
  { intros C. by apply (C _ (lt3_wf (measure st))). }
  clear st. induction 1 as [m _ IH]. intros st <- tr [fa] [fa']. simpl.
  destruct (solved_reqds st <? reqds); [|done].
  destruct (Sumbool.sumbool_of_bool (outer_again (inner st tr))) as [H|H];
    [|done].
  by apply (IH _ (inner_measure st tr H)).
Qed.

Lemma outer_eq reqds st tr :
  outer reqds st tr =
  if solved_reqds st <? reqds then
    if outer_again (inner st tr)
    then outer reqds (sw_state (inner st tr)) (sw_trace (inner st tr))
    else mk_result (sw_state (inner st tr)) (sw_trace (inner st tr))
           (sw_crashed (inner st tr))
  else mk_result st tr false.
Proof.
  unfold outer at 1. destruct (lt3_wf (measure st)) as [fa]. simpl.
  destruct (solved_reqds st <? reqds); [|done].
  destruct (Sumbool.sumbool_of_bool (outer_again (inner st tr))) as [H|H].
  - etransitivity; [apply outer_acc_irrel|]. by rewrite H.
  - by rewrite H.
Qed.

Lemma inner_fuel_sound fuel st tr r :
  inner_fuel fuel st tr = Some r -> inner st tr = r.
Proof.
  revert st tr. induction fuel as [|fuel IH]; intros st tr; [done|].
  simpl. rewrite inner_eq.
  destruct (inner_again (sweep st tr)); [apply IH|congruence].
Qed.

Lemma outer_fuel_sound fuel reqds st tr r :
  outer_fuel fuel reqds st tr = Some r -> outer reqds st tr = r.
Proof.
  revert st tr. induction fuel as [|fuel IH]; intros st tr; [done|].
  simpl. rewrite outer_eq.
  destruct (solved_reqds st <? reqds); [|congruence].
  destruct (inner_fuel fuel st tr) as [s|] eqn:Hi; [|done].
  apply inner_fuel_sound in Hi. subst s.
  destruct (outer_again (inner st tr)); [apply IH|congruence].
Qed.

Lemma search_fuel_sound fuel g r : search_fuel fuel g = Some r -> search g = r.
Proof. apply outer_fuel_sound. Qed.

(** ** What the loop bodies leave alone *)

Lemma statics_mark_sources pth xs : statics (mark_sources pth xs) = statics xs.
Proof.
  revert xs. induction pth as [|e pth IH]; intros xs; [done|].
  simpl. rewrite IH. by apply fmap_alter_same.
Qed.

Lemma scan_statics n pth outs st :
  statics (xnodes (scan n pth outs st).1) = statics (xnodes st).
Proof.
  revert st. induction outs as [|out outs IH]; intros st; simpl; [done|].
  destruct (xnodes st !! XEdge.to out) as [t|]; [|done].
  destruct (reqd t && negb (XEdge.to out =? n) || in_permanent_web t).
  { simpl. unfold mark_permanent, statics.
    rewrite fmap_alter_same by done. apply statics_mark_sources. }
  destruct (in_temporary_web t).
  { destruct (witness t) as [w|]; [|done].
    destruct (wnode w =? n); [apply IH|].
    simpl. unfold mark_permanent, statics.
    rewrite fmap_alter_same by done. apply statics_mark_sources. }
  rewrite IH. simpl. by apply fmap_alter_same.
Qed.

Lemma visit_statics i st :
  statics (xnodes (visit i st).1) = statics (xnodes st).
Proof.
  unfold visit.
  destruct (xnodes st !! i) as [n|]; [|done].
  destruct (reqd n); [|done]. simpl.
  destruct (fifo n) as [|pp rest]; [done|].
  destruct (in_permanent_web n); [done|].
  destruct (requeue pp).
  { simpl. unfold statics. by rewrite !fmap_alter_same. }
  simpl.
  destruct (alter (set_fifo rest) i (xnodes st) !! point pp) as [xp|].
  2:{ simpl. by apply fmap_alter_same. }
  set (st2 := with_xnodes _ _).
  pose proof (scan_statics i (path pp) (outgoing xp) st2) as S.
  assert (statics (xnodes st2) = statics (xnodes st)) as S2.
  { subst st2. simpl. unfold statics. by rewrite !fmap_alter_same. }
  destruct (scan i (path pp) (outgoing xp) st2) as [st3 []]; simpl in *;
    congruence.
Qed.

Lemma statics_length xs ys : statics xs = statics ys -> length xs = length ys.
Proof.
  intros H. apply (f_equal length) in H. unfold statics in H.
  by rewrite !length_fmap in H.
Qed.

Lemma visit_length i st :
  length (xnodes (visit i st).1) = length (xnodes st).
Proof. apply statics_length, visit_statics. Qed.


(** ** The trace of the loops is a chain *)

Lemma steps_trans st0 tr1 st1 tr2 st2 :
  steps st0 tr1 st1 -> steps st1 tr2 st2 -> steps st0 (tr1 ++ tr2) st2.
Proof.
  intros H1 H2. induction H2 as [|tr st i _ IH Hi].
  - by rewrite app_nil_r.
  - rewrite app_assoc. by constructor.
Qed.

(** The loops only ever append to the trace, and what they append is a
    chain. *)
Lemma for_loop_steps st0 todo i f st tr :
  steps st0 tr st -> i + todo = length (xnodes st) ->
  steps st0 (sw_trace (for_loop todo i f st tr))
    (sw_state (for_loop todo i f st tr)).
Proof.
  revert i f st tr. induction todo as [|todo IH]; intros i f st tr H L;
    simpl; [done|].
  assert (steps st0 (tr ++ [mk_step i st (visit i st).2 (visit i st).1])
            (visit i st).1) as H' by (constructor; [done|lia]).
  assert (S i + todo = length (xnodes (visit i st).1)) as L'
    by (rewrite visit_length; lia).
  destruct ((visit i st).2) as [| |p pth []|]; simpl; auto.
Qed.

Lemma sweep_steps st0 st tr :
  steps st0 tr st ->
  steps st0 (sw_trace (sweep st tr)) (sw_state (sweep st tr)).
Proof. intros H. by apply for_loop_steps. Qed.

Lemma inner_steps st0 st tr :
  steps st0 tr st ->
  steps st0 (sw_trace (inner st tr)) (sw_state (inner st tr)).
Proof.
  revert tr.
  cut (forall m, Acc lt3 m -> forall st, measure st = m ->
         forall tr, steps st0 tr st ->
           steps st0 (sw_trace (inner st tr)) (sw_state (inner st tr))).
  { intros C. by apply (C _ (lt3_wf (measure st))). }
  clear st. induction 1 as [m _ IH]. intros st <- tr H. rewrite inner_eq.
  destruct (inner_again (sweep st tr)) eqn:Ha; [|by apply sweep_steps].
  eapply IH; [by apply sweep_decreases|done|by apply sweep_steps].
Qed.

Lemma outer_steps reqds st0 st tr :
  steps st0 tr st ->
  steps st0 (trace (outer reqds st tr)) (final (outer reqds st tr)).
Proof.
  revert tr.
  cut (forall m, Acc lt3 m -> forall st, measure st = m ->
         forall tr, steps st0 tr st ->
           steps st0 (trace (outer reqds st tr)) (final (outer reqds st tr))).
  { intros C. by apply (C _ (lt3_wf (measure st))). }
  clear st. induction 1 as [m _ IH]. intros st <- tr H. rewrite outer_eq.
  destruct (solved_reqds st <? reqds); [|done].
  destruct (outer_again (inner st tr)) eqn:Ha; [|by apply inner_steps].
  eapply IH; [by apply inner_measure|done|by apply inner_steps].
Qed.

Lemma search_steps g :
  steps (g_start g) (trace (search g)) (final (search g)).
Proof. apply outer_steps. constructor. Qed.

Lemma steps_faithful st0 tr st : steps st0 tr st -> Forall faithful tr.
Proof.
  induction 1 as [|tr st i _ IH Hi]; [constructor|].
  apply Forall_app. split; [done|]. by repeat constructor.
Qed.

(** A property of states kept by every body holds all along a chain. *)
Lemma steps_invariant (P : state -> Prop) st0 tr st :
  (forall i st, P st -> i < length (xnodes st) -> P (visit i st).1) ->
  P st0 -> steps st0 tr st ->
  P st /\ Forall (fun s => P (pre s) /\ P (post s)) tr.
Proof.
  intros Hstep H0. induction 1 as [|tr st i _ [IH1 IH2] Hi]; [by split|].
  split; [by apply Hstep|].
  apply Forall_app. split; [done|]. repeat constructor; simpl; auto.
Qed.

(** ** Well-formed states stay well formed *)

Section WellFormed.
Variable good : xedge -> Prop.
Variable N : nat.
Hypothesis good_to : forall e, good e -> XEdge.to e < N.

Lemma xnode_ok_set_permanent x :
  xnode_ok good N x -> xnode_ok good N (set_permanent x).
Proof. by intros (?&?&?&?). Qed.

Lemma xnode_ok_set_fifo q x :
  Forall (ppath_ok good N) q -> xnode_ok good N x -> xnode_ok good N (set_fifo q x).
Proof. by intros ? (?&?&?&?). Qed.

Lemma xnode_ok_fifo_push pp x :
  ppath_ok good N pp -> xnode_ok good N x -> xnode_ok good N (fifo_push pp x).
Proof.
  intros ? (?&?&?&?). split_and!; try done.
  simpl. apply Forall_app. split; [done|by constructor].
Qed.

Lemma xnode_ok_set_arrival w x :
  Forall good (wpath w) -> xnode_ok good N x -> xnode_ok good N (set_arrival w x).
Proof.
  intros ? (?&?&?&?). split_and!; try done; simpl.
  by intros ? [= <-].
Qed.

Lemma nodes_ok_mark_sources pth xs :
  Forall (xnode_ok good N) xs -> Forall (xnode_ok good N) (mark_sources pth xs).
Proof.
  revert xs. induction pth as [|e pth IH]; intros xs H; [done|].
  simpl. apply IH. apply Forall_alter; [done|].
  intros x _. apply xnode_ok_set_permanent.
Qed.

Lemma length_mark_sources pth xs : length (mark_sources pth xs) = length xs.
Proof. apply statics_length, statics_mark_sources. Qed.

Lemma wf_merge st added :
  wf good N st -> Forall good added -> forall marked d k,
  wf good N (mk_state (mark_permanent d (mark_sources marked (xnodes st)))
        (soln st ++ added) k).
Proof.
  intros (L&Hn&Hs) Hg marked d k. unfold wf, mark_permanent. simpl. split_and!.
  - by rewrite length_alter, length_mark_sources.
  - apply Forall_alter; [by apply nodes_ok_mark_sources|].
    intros x _. apply xnode_ok_set_permanent.
  - apply Forall_app. by split.
Qed.

Lemma scan_wf n pth outs st :
  wf good N st -> Forall good pth -> Forall good outs ->
  wf good N (scan n pth outs st).1 /\ (scan n pth outs st).2 <> Fault.
Proof.
  revert st. induction outs as [|out outs IH]; intros st W Hp Ho; simpl;
    [done|].
  apply Forall_cons in Ho as [Hout Ho].
  pose proof W as (L&Hn&Hs).
  destruct (lookup_lt_is_Some_2 (xnodes st) (XEdge.to out)) as [t Ht];
    [rewrite L; by apply good_to|].
  rewrite Ht.
  pose proof (Forall_lookup_1 _ _ _ _ Hn Ht) as (Hto&Htq&Htw&Htt).
  destruct (reqd t && negb (XEdge.to out =? n) || in_permanent_web t).
  { split; [|done]. simpl. unfold terminal_merge.
    apply (wf_merge st (pth ++ [out])); [done|].
    apply Forall_app. split; [done|by constructor]. }
  destruct (in_temporary_web t).
  { destruct Htt as [w Hw]; [done|]. rewrite Hw.
    destruct (wnode w =? n); [by apply IH|].
    split; [|done]. simpl. unfold cross_merge.
    apply (wf_merge st (pth ++ wpath w ++ [out])); [done|].
    rewrite !Forall_app. split_and!; [done|by apply Htw|by constructor]. }
  apply IH; [|done..].
  unfold wf. simpl. split_and!; [by rewrite length_alter| |done].
  apply Forall_alter; [done|]. intros x _. apply xnode_ok_fifo_push.
  split; simpl; [by apply good_to|].
  apply Forall_app. split; [done|by constructor].
Qed.

Lemma visit_wf i st :
  wf good N st -> wf good N (visit i st).1 /\ (i < N -> (visit i st).2 <> Crashed).
Proof.
  intros W. pose proof W as (L&Hn&Hs). unfold visit.
  destruct (xnodes st !! i) as [n|] eqn:Hi.
  2:{ split; [done|]. intros Hlt. apply lookup_ge_None in Hi. lia. }
  destruct (reqd n); [|done]. simpl.
  destruct (fifo n) as [|pp rest] eqn:Hq; [done|].
  destruct (in_permanent_web n); [done|].
  pose proof (Forall_lookup_1 _ _ _ _ Hn Hi) as (_&Hnq&_&_).
  rewrite Hq in Hnq. apply Forall_cons in Hnq as [[Hpp1 Hpp2] Hrest].
  assert (wf good N (with_xnodes (alter (set_fifo rest) i) st)) as W1.
  { unfold wf. simpl. split_and!; [by rewrite length_alter| |done].
    apply Forall_alter; [done|]. intros x _. by apply xnode_ok_set_fifo. }
  unfold requeue. destruct (1 <? endweight pp)%Z.
  { split; [|done]. simpl.
    unfold wf. simpl. split_and!; [by rewrite !length_alter| |done].
    apply Forall_alter; [apply W1|]. intros x _.
    by apply xnode_ok_fifo_push. }
  simpl.
  destruct (lookup_lt_is_Some_2 (alter (set_fifo rest) i (xnodes st))
              (point pp)) as [xp Hxp]; [by rewrite length_alter, L|].
  rewrite Hxp.
  set (st2 := with_xnodes _ _).
  assert (wf good N st2) as W2.
  { destruct W1 as (L1&Hn1&Hs1). unfold wf. subst st2. simpl in *.
    split_and!; [by rewrite length_alter| |done].
    apply Forall_alter; [done|]. intros x _.
    by apply xnode_ok_set_arrival. }
  destruct W1 as (_&Hn1&_).
  pose proof (Forall_lookup_1 _ _ _ _ Hn1 Hxp) as (Hout&_).
  pose proof (scan_wf i (path pp) (outgoing xp) st2 W2 Hpp2 Hout) as [W3 F].
  destruct (scan i (path pp) (outgoing xp) st2) as [st3 []]; done.
Qed.

Lemma steps_wf st0 tr st :
  wf good N st0 -> steps st0 tr st ->
  wf good N st /\ Forall (fun s => wf good N (pre s) /\ wf good N (post s)) tr.
Proof.
  intros W. apply steps_invariant; [|done].
  intros i s Hs _. by apply visit_wf.
Qed.

Lemma steps_no_crash st0 tr st :
  wf good N st0 -> steps st0 tr st -> Forall (fun s => act s <> Crashed) tr.
Proof.
  intros W H. pose proof (steps_wf _ _ _ W H) as [_ Hw].
  pose proof (steps_faithful _ _ _ H) as Hf.
  apply Forall_forall. intros s Hs.
  rewrite Forall_forall in Hw, Hf.
  destruct (Hw s Hs) as [(L&_) _]. destruct (Hf s Hs) as (Hi&->&_).
  apply visit_wf; [by apply Hw|lia].
Qed.
End WellFormed.


(** ** The builder *)

Lemma index_of_lt nodes n i : index_of nodes n = Some i -> nodes !! i = Some n.
Proof.
  unfold index_of. intros H. apply fmap_Some in H as ([j m]&H&->).
  apply list_find_Some in H as (H&->&_). done.
Qed.

Lemma index_of_None nodes n : index_of nodes n = None <-> n ∉ nodes.
Proof.
  unfold index_of. rewrite fmap_None, list_find_None, Forall_forall.
  split.
  - intros H Hn. by apply (H n).
  - intros H m Hm ->. done.
Qed.

Lemma get_xnode_index_of xs n : get_xnode xs n = index_of (node <$> xs) n.
Proof.
  unfold get_xnode, index_of. rewrite list_find_fmap.
  by destruct (list_find _ xs) as [[]|].
Qed.

Lemma built_to nodes edges e : built nodes edges e -> XEdge.to e < length nodes.
Proof.
  intros [_ H]. unfold wrap in H.
  destruct (index_of nodes (Edge.from (XEdge.edge e))) as [f|]; [|done].
  destruct (index_of nodes (Edge.to (XEdge.edge e))) as [t|] eqn:Ht; [|done].
  injection H as <-. simpl. apply index_of_lt in Ht.
  by eapply lookup_lt_Some.
Qed.

Lemma built_from nodes edges e :
  built nodes edges e -> XEdge.from e < length nodes.
Proof.
  intros [_ H]. unfold wrap in H.
  destruct (index_of nodes (Edge.from (XEdge.edge e))) as [f|] eqn:Hf; [|done].
  destruct (index_of nodes (Edge.to (XEdge.edge e))) as [t|]; [|done].
  injection H as <-. simpl. apply index_of_lt in Hf.
  by eapply lookup_lt_Some.
Qed.


(** The ends of a built edge are the places of the caller's ends. *)
Lemma built_ends nodes edges e :
  built nodes edges e ->
  nodes !! XEdge.from e = Some (Edge.from (XEdge.edge e)) /\
  nodes !! XEdge.to e = Some (Edge.to (XEdge.edge e)).
Proof.
  intros [_ H]. unfold wrap in H.
  destruct (index_of nodes (Edge.from (XEdge.edge e))) as [f|] eqn:Hf; [|done].
  destruct (index_of nodes (Edge.to (XEdge.edge e))) as [t|] eqn:Ht; [|done].
  injection H as <-. simpl. split; by apply index_of_lt.
Qed.

Lemma annotate_nodes_fst required nodes acc :
  (fold_left (annotate_node required) nodes acc).1 =
  acc.1 ++ ((fun n => new_xnode n (is_reqd required n)) <$> nodes).
Proof.
  revert acc. induction nodes as [|n nodes IH]; intros acc; simpl.
  - by rewrite app_nil_r.
  - rewrite IH. simpl. by rewrite <- app_assoc.
Qed.

Lemma annotate_edge_thrown es err :
  fold_left annotate_edge es (Thrown err) = Thrown err.
Proof. induction es as [|e es IH]; [done|]. simpl. apply IH. Qed.

Lemma annotate_edges_spec nodes edges es xs xes :
  node <$> xs = nodes ->
  Forall (pristine nodes edges) xs ->
  Forall (built nodes edges) xes ->
  Forall (fun e => e ∈ edges) es ->
  match fold_left annotate_edge es (Returned (xs, xes)) with
  | Thrown err => err = TypeError
  | Returned (xs', xes') =>
      node <$> xs' = nodes /\
      reqd <$> xs' = reqd <$> xs /\
      Forall (pristine nodes edges) xs' /\
      Forall (built nodes edges) xes' /\
      XEdge.edge <$> xes' = (XEdge.edge <$> xes) ++ es
  end.
Proof.
  revert xs xes. induction es as [|e es IH]; intros xs xes Hn Hp Hb He; simpl.
  { by rewrite app_nil_r. }
  apply Forall_cons in He as [He Hes].
  rewrite !get_xnode_index_of, Hn.
  destruct (index_of nodes (Edge.from e)) as [f|] eqn:Hf;
    [|by rewrite annotate_edge_thrown].
  destruct (index_of nodes (Edge.to e)) as [t|] eqn:Ht;
    [|by rewrite annotate_edge_thrown].
  set (xe := XEdge.mk e f t (Edge.weight e) false false).
  assert (built nodes edges xe) as Hxe.
  { split; [done|]. unfold wrap. simpl. by rewrite Hf, Ht. }
  specialize (IH (alter (push_incoming xe) t (alter (push_outgoing xe) f xs))
                (xes ++ [xe])).
  destruct (fold_left annotate_edge es _) as [[xs' xes']|err].
  2:{ apply IH; try done.
      - clear IH. rewrite <- Hn. rewrite !fmap_alter_same; done.
      - apply Forall_alter.
        + apply Forall_alter; [done|]. intros x _ (H1&H2&H3&H4&H5).
          split_and!; try done. simpl. apply Forall_app. split; [done|].
          by constructor.
        + by intros x _ (H1&H2&H3&H4&H5).
      - apply Forall_app. split; [done|by constructor]. }
  destruct IH as (I1&I2&I3&I4&I5).
  - rewrite <- Hn. rewrite !fmap_alter_same; done.
  - apply Forall_alter.
    + apply Forall_alter; [done|]. intros x _ (H1&H2&H3&H4&H5).
      split_and!; try done. simpl. apply Forall_app. split; [done|].
      by constructor.
    + by intros x _ (H1&H2&H3&H4&H5).
  - apply Forall_app. split; [done|by constructor].
  - done.
  - split_and!; try done.
    + rewrite I2. rewrite !fmap_alter_same; done.
    + rewrite I5, fmap_app. simpl. by rewrite <- app_assoc.
Qed.

Lemma annotate_spec nodes edges required g :
  annotate nodes edges required = Returned g ->
  wf (built nodes edges) (length nodes) (g_start g) /\
  Forall (built nodes edges) (g_xedges g) /\
  XEdge.edge <$> g_xedges g = edges /\
  node <$> xnodes (g_start g) = nodes /\
  soln (g_start g) = [] /\
  (forall i x, xnodes (g_start g) !! i = Some x -> seeded i x).
Proof.
  unfold annotate, annotate_nodes.
  pose proof (annotate_nodes_fst required nodes ([], 0)) as E.
  destruct (fold_left (annotate_node required) nodes ([], 0)) as [xs reqds].
  simpl in E. subst xs.
  set (xs := _ <$> nodes).
  assert (node <$> xs = nodes) as Hn.
  { subst xs. rewrite <- list_fmap_compose. apply list_fmap_id. }
  assert (Forall (pristine nodes edges) xs) as Hp.
  { subst xs. apply Forall_fmap, Forall_forall. intros n _.
    by repeat split. }
  pose proof (annotate_edges_spec nodes edges edges xs [] Hn Hp
                (Forall_nil_2 _)) as S.
  unfold annotate_edges.
  destruct (fold_left annotate_edge edges (Returned (xs, []))) as
    [[xs' xes]|err]; [|done].
  destruct S as (S1&S2&S3&S4&S5); [by apply Forall_forall|].
  intros [= <-]. simpl.
  assert (forall i x, imap seed xs' !! i = Some x ->
            exists y, xs' !! i = Some y /\ x = seed i y) as Hl.
  { intros i x H. rewrite list_lookup_imap in H.
    destruct (xs' !! i) as [y|]; [|done]. injection H as <-. by exists y. }
  assert (length xs' = length nodes) as L.
  { rewrite <- S1. by rewrite length_fmap. }
  split_and!; try done.
  - unfold wf. simpl. split_and!; [by rewrite length_imap| |constructor].
    apply Forall_lookup. intros i x H.
    destruct (Hl _ _ H) as (y&Hy&->).
    pose proof (Forall_lookup_1 _ _ _ _ S3 Hy) as (P1&P2&P3&P4&P5).
    apply lookup_lt_Some in Hy.
    unfold seed. destruct (reqd y).
    + split_and!; simpl; try done; [|by rewrite P3|by rewrite P4].
      repeat constructor. simpl. lia.
    + split_and!; simpl; try done; [by rewrite P2|by rewrite P3|by rewrite P4].
  - rewrite <- S1. apply list_eq. intros i.
    rewrite !list_lookup_fmap, list_lookup_imap.
    destruct (xs' !! i) as [y|]; [|done]. simpl. unfold seed.
    by destruct (reqd y).
  - intros i x H. destruct (Hl _ _ H) as (y&Hy&->).
    pose proof (Forall_lookup_1 _ _ _ _ S3 Hy) as (P1&P2&P3&P4&P5).
    unfold seeded, seed. destruct (reqd y) eqn:R; simpl; by rewrite ?R.
Qed.

Lemma annotate_throws nodes edges required :
  (exists e, e ∈ edges /\ (Edge.from e ∉ nodes \/ Edge.to e ∉ nodes)) ->
  annotate nodes edges required = Thrown TypeError.
Proof.
  intros Hbad. unfold annotate, annotate_nodes.
  pose proof (annotate_nodes_fst required nodes ([], 0)) as E.
  destruct (fold_left (annotate_node required) nodes ([], 0)) as [xs reqds].
  simpl in E. subst xs.
  set (xs := _ <$> nodes).
  assert (node <$> xs = nodes) as Hn.
  { subst xs. rewrite <- list_fmap_compose. apply list_fmap_id. }
  clearbody xs.
  cut (annotate_edges xs edges = Thrown TypeError); [by intros ->|].
  unfold annotate_edges. generalize (@nil xedge) as xes.
  revert xs Hn. induction edges as [|e es IH]; intros xs Hn xes.
  { destruct Hbad as (e&He&_). by apply elem_of_nil in He. }
  simpl. rewrite !get_xnode_index_of, Hn.
  destruct (index_of nodes (Edge.from e)) as [f|] eqn:Hf;
    [|apply annotate_edge_thrown].
  destruct (index_of nodes (Edge.to e)) as [t|] eqn:Ht;
    [|apply annotate_edge_thrown].
  apply IH.
  - destruct Hbad as (e'&He'&Hb). apply elem_of_cons in He' as [->|He'];
      [|by exists e'].
    exfalso. destruct Hb as [Hb|Hb]; apply index_of_None in Hb; congruence.
  - rewrite <- Hn. by rewrite !fmap_alter_same.
Qed.

(** ** Induction along the loops *)

Lemma inner_rect' (P : state -> list step -> sweep_t -> Prop) :
  (forall st tr, inner_again (sweep st tr) = false -> P st tr (sweep st tr)) ->
  (forall st tr r, inner_again (sweep st tr) = true ->
     P (sw_state (sweep st tr)) (sw_trace (sweep st tr)) r -> P st tr r) ->
  forall st tr, P st tr (inner st tr).
Proof.
  intros Hstop Hagain st.
  cut (forall m, Acc lt3 m -> forall st, measure st = m ->
         forall tr, P st tr (inner st tr)).
  { intros C. by apply (C _ (lt3_wf (measure st))). }
  clear st. induction 1 as [m _ IH]. intros st <- tr. rewrite inner_eq.
  destruct (inner_again (sweep st tr)) eqn:Ha; [|by apply Hstop].
  apply Hagain; [done|]. eapply IH; [by apply sweep_decreases|done].
Qed.

Lemma outer_rect' reqds (P : state -> list step -> result -> Prop) :
  (forall st tr, (solved_reqds st <? reqds) = false ->
     P st tr (mk_result st tr false)) ->
  (forall st tr, (solved_reqds st <? reqds) = true ->
     outer_again (inner st tr) = false ->
     P st tr (mk_result (sw_state (inner st tr)) (sw_trace (inner st tr))
                (sw_crashed (inner st tr)))) ->
  (forall st tr r, (solved_reqds st <? reqds) = true ->
     outer_again (inner st tr) = true ->
     P (sw_state (inner st tr)) (sw_trace (inner st tr)) r -> P st tr r) ->
  forall st tr, P st tr (outer reqds st tr).
Proof.
  intros Hdone Hstop Hagain st.
  cut (forall m, Acc lt3 m -> forall st, measure st = m ->
         forall tr, P st tr (outer reqds st tr)).
  { intros C. by apply (C _ (lt3_wf (measure st))). }
  clear st. induction 1 as [m _ IH]. intros st <- tr. rewrite outer_eq.
  destruct (solved_reqds st <? reqds) eqn:Hs; [|by apply Hdone].
  destruct (outer_again (inner st tr)) eqn:Ha; [|by apply Hstop].
  apply Hagain; [done..|]. eapply IH; [by apply inner_measure|done].
Qed.

(** The loops report a crash only when a body crashed. *)
Lemma for_loop_crashed todo i f st tr :
  sw_crashed (for_loop todo i f st tr) = true ->
  exists s, s ∈ sw_trace (for_loop todo i f st tr) /\ act s = Crashed.
Proof.
  revert i f st tr. induction todo as [|todo IH]; intros i f st tr; simpl;
    [done|].
  destruct ((visit i st).2) as [| |p pth []|] eqn:E; simpl; auto; try done.
  intros _. eexists. split; [apply elem_of_app; right; by left|]. done.
Qed.

Lemma inner_crashed st tr :
  sw_crashed (inner st tr) = true ->
  exists s, s ∈ sw_trace (inner st tr) /\ act s = Crashed.
Proof.
  apply (inner_rect' (fun st tr r => sw_crashed r = true ->
           exists s, s ∈ sw_trace r /\ act s = Crashed)); [|done].
  intros st' tr' _. apply for_loop_crashed.
Qed.

Lemma outer_crashed reqds st tr :
  crashed (outer reqds st tr) = true ->
  exists s, s ∈ trace (outer reqds st tr) /\ act s = Crashed.
Proof.
  apply (outer_rect' reqds (fun st tr r => crashed r = true ->
           exists s, s ∈ trace r /\ act s = Crashed)); [done| |done].
  intros st' tr' _ _. simpl. apply inner_crashed.
Qed.

(** A search of a built graph never reads through a dangling reference,
    and all its states are well formed. *)
Lemma search_wf nodes edges required g :
  annotate nodes edges required = Returned g ->
  wf (built nodes edges) (length nodes) (final (search g)) /\
  Forall (fun s => wf (built nodes edges) (length nodes) (pre s) /\
                   wf (built nodes edges) (length nodes) (post s))
    (trace (search g)) /\
  crashed (search g) = false.
Proof.
  intros Ha. pose proof (annotate_spec _ _ _ _ Ha) as (W&_).
  pose proof (search_steps g) as S.
  pose proof (steps_wf _ _ (built_to nodes edges) _ _ _ W S) as [W1 W2].
  split_and!; [done..|].
  destruct (crashed (search g)) eqn:C; [|done].
  apply outer_crashed in C as (s&Hs&Hc).
  pose proof (steps_no_crash _ _ (built_to nodes edges) _ _ _ W S) as Hn.
  rewrite Forall_forall in Hn. by destruct (Hn s Hs).
Qed.

(** ** Bounded runs give the results of the total loops *)

Lemma search_trace_fuel_sound fuel nodes edges required tr :
  search_trace_fuel fuel nodes edges required = Some tr ->
  search_trace nodes edges required = tr.
Proof.
  unfold search_trace_fuel, search_trace.
  destruct (annotate nodes edges required) as [g|]; [|congruence].
  destruct (search_fuel fuel g) as [r|] eqn:E; [|done].
  apply search_fuel_sound in E. by intros [= <-]; subst.
Qed.

Lemma steiner_fuel_sound connect fuel nodes edges required c :
  steiner_fuel connect fuel nodes edges required = Some c ->
  steiner connect nodes edges required = c.
Proof.
  unfold steiner_fuel, steiner.
  destruct (annotate nodes edges required) as [g|]; [|congruence].
  destruct (search_fuel fuel g) as [r|] eqn:E; [|done].
  apply search_fuel_sound in E. subst r. congruence.
Qed.

(** ** The solution normalizer *)

Lemma same_ends_xends a b : same_ends a b = true <-> xends a = xends b.
Proof.
  unfold same_ends, xends. rewrite andb_true_iff, !Nat.eqb_eq.
  split; [by intros [-> ->]|by intros [= -> ->]].
Qed.

Lemma existsb_same_ends retval e :
  existsb (fun r => same_ends r e) retval = true <-> xends e ∈ xends <$> retval.
Proof.
  rewrite existsb_exists, list_elem_of_fmap. split.
  - intros (r&Hr&H). exists r. apply same_ends_xends in H.
    by rewrite <- list_elem_of_In in Hr.
  - intros (r&H&Hr). exists r. rewrite <- list_elem_of_In.
    split; [done|]. by apply same_ends_xends.
Qed.

(** What the loop of [uniqueify] does from any value of [retval]. *)
Lemma uniqueify_from es retval :
  NoDup (xends <$> retval) ->
  exists kept,
    fold_left uniqueify_step es retval = retval ++ kept /\
    kept `sublist_of` es /\
    NoDup (xends <$> (retval ++ kept)) /\
    (forall e, e ∈ kept ->
       (xends e ∉ xends <$> retval) /\
       find (fun r => same_ends r e) es = Some e) /\
    (forall e, e ∈ es -> xends e ∈ xends <$> (retval ++ kept)).
Proof.
  revert retval. induction es as [|e es IH]; intros retval Hnd; simpl.
  { exists []. rewrite app_nil_r. split_and!; try done.
    - intros e He. by apply elem_of_nil in He.
    - intros e He. by apply elem_of_nil in He. }
  unfold uniqueify_step at 2.
  destruct (existsb (fun r => same_ends r e) retval) eqn:Hex.
  - apply existsb_same_ends in Hex.
    destruct (IH retval Hnd) as (kept&E&Hsub&Hnd'&Hfirst&Hall).
    exists kept. split_and!; try done.
    + by apply sublist_cons.
    + intros e' He'. destruct (Hfirst e' He') as [Hfresh Hfind].
      split; [done|]. destruct (same_ends e e') eqn:Hs; [|done].
      apply same_ends_xends in Hs. congruence.
    + intros e' He'. apply elem_of_cons in He' as [->|He']; [|by apply Hall].
      rewrite fmap_app. apply elem_of_app. by left.
  - assert (xends e ∉ xends <$> retval) as Hfresh.
    { intros H. apply existsb_same_ends in H. congruence. }
    destruct (IH (retval ++ [e])) as (kept&E&Hsub&Hnd'&Hfirst&Hall).
    { rewrite fmap_app. apply NoDup_app. split_and!; [done| |].
      - intros x Hx Hx'. apply list_elem_of_singleton in Hx'. by subst.
      - apply NoDup_singleton. }
    exists (e :: kept). rewrite <- app_assoc in E, Hnd', Hall.
    simpl in E, Hnd', Hall. split_and!; try done.
    + by apply sublist_skip.
    + intros e' He'. apply elem_of_cons in He' as [->|He'].
      * split; [done|]. assert (same_ends e e = true) as ->; [|done].
        by apply same_ends_xends.
      * destruct (Hfirst e' He') as [Hf Hfind].
        rewrite fmap_app, elem_of_app in Hf. split; [tauto|].
        destruct (same_ends e e') eqn:Hs; [|done].
        apply same_ends_xends in Hs. exfalso. apply Hf. right.
        simpl. rewrite Hs. by left.
    + intros e' He'. apply elem_of_cons in He' as [->|He']; [|by apply Hall].
      rewrite fmap_app. apply elem_of_app. right. simpl. by left.
Qed.







(** ** The solved-required counter *)

Lemma lookup_mark_sources_is_Some pth xs i :
  is_Some (xs !! i) -> is_Some (mark_sources pth xs !! i).
Proof.
  intros H. apply lookup_lt_is_Some. rewrite length_mark_sources.
  by apply lookup_lt_is_Some.
Qed.

Lemma terminal_merge_solved pth out st :
  is_Some (xnodes st !! XEdge.to out) ->
  solved_reqds (terminal_merge pth out st) = solved_reqds st + 1.
Proof.
  intros H. unfold terminal_merge, mark_permanent. simpl.
  rewrite list_lookup_alter_eq.
  by destruct (lookup_mark_sources_is_Some pth _ _ H) as [t ->].
Qed.

Lemma scan_solved n pth outs st :
  solved_reqds (scan n pth outs st).1 =
  match (scan n pth outs st).2 with
  | TerminalMerge _ => solved_reqds st + 1
  | CrossMerge _ => solved_reqds st + 2
  | _ => solved_reqds st
  end.
Proof.
  revert st. induction outs as [|out outs IH]; intros st; simpl; [done|].
  destruct (xnodes st !! XEdge.to out) as [t|] eqn:Ht; [|done].
  destruct (reqd t && negb (XEdge.to out =? n) || in_permanent_web t).
  { simpl. apply terminal_merge_solved. by rewrite Ht. }
  destruct (in_temporary_web t).
  { destruct (witness t) as [w|]; [|done].
    by destruct (wnode w =? n); [apply IH|]. }
  by rewrite IH.
Qed.

Lemma visit_solved i st :
  match (visit i st).2 with
  | Arrived _ _ (TerminalMerge _) =>
      solved_reqds (visit i st).1 = solved_reqds st + 1
  | Arrived _ _ (CrossMerge _) =>
      solved_reqds (visit i st).1 = solved_reqds st + 2
  | Crashed => True
  | _ => solved_reqds (visit i st).1 = solved_reqds st
  end.
Proof.
  unfold visit.
  destruct (xnodes st !! i) as [n|]; [|done].
  destruct (reqd n); [|done]. simpl.
  destruct (fifo n) as [|pp rest]; [done|].
  destruct (in_permanent_web n); [done|].
  destruct (requeue pp); [done|]. simpl.
  destruct (alter (set_fifo rest) i (xnodes st) !! point pp) as [xp|]; [|done].
  set (st2 := with_xnodes _ _).
  pose proof (scan_solved i (path pp) (outgoing xp) st2) as S.
  by destruct (scan i (path pp) (outgoing xp) st2) as [st3 []].
Qed.

Lemma search_trace_faithful nodes edges required :
  Forall faithful (search_trace nodes edges required).
Proof.
  unfold search_trace.
  destruct (annotate nodes edges required) as [g|]; [|constructor].
  eapply steps_faithful, search_steps.
Qed.

(** C3. In the terminal-merge branch the test of line 195 always finds the
    destination's [in_permanent_web] set, so the counter goes up by one, never
    by two: in any state where the destination exists, and at every
    terminal merge of every search. *)
Theorem terminal_merge_adds_one nodes edges required :
  (forall pth out st,
     is_Some (xnodes st !! XEdge.to out) ->
     solved_reqds (terminal_merge pth out st) = solved_reqds st + 1) /\
  (forall s p pth d,
     s ∈ search_trace nodes edges required ->
     act s = Arrived p pth (TerminalMerge d) ->
     solved_reqds (post s) = solved_reqds (pre s) + 1).
Proof.
  split; [apply terminal_merge_solved|].
  intros s p pth d Hs Ha.
  pose proof (search_trace_faithful nodes edges required) as F.
  rewrite Forall_forall in F. destruct (F s Hs) as (_&Hact&Hpost).
  pose proof (visit_solved (who s) (pre s)) as V.
  rewrite <- Hact, <- Hpost, Ha in V. exact V.
Qed.

Lemma terminal_merge_adds_one_witness :
  match search_trace [7; 9] [Edge.mk 7 9 5 0] [7; 9] with
  | s :: _ => solved_reqds (post s) = solved_reqds (pre s) + 1
  | [] => False
  end.
Proof.
  destruct (search_trace_fuel 5 [7; 9] [Edge.mk 7 9 5 0] [7; 9]) as [tr|] eqn:E;
    [|by vm_compute in E].
  pose proof (search_trace_fuel_sound _ _ _ _ _ E) as S.
  vm_compute in E. injection E as <-.
  pose proof (proj2 (terminal_merge_adds_one [7; 9] [Edge.mk 7 9 5 0] [7; 9]))
    as T.
  rewrite S in T |- *. eapply T; [by left|reflexivity].
Defined.

(** ** Malformed input *)

Lemma annotate_nodes_agree required required' nodes acc :
  (forall n, n ∈ nodes -> is_reqd required' n = is_reqd required n) ->
  fold_left (annotate_node required') nodes acc =
  fold_left (annotate_node required) nodes acc.
Proof.
  revert acc. induction nodes as [|n nodes IH]; intros acc H; [done|].
  simpl. rewrite IH by (intros; apply H; by right).
  unfold annotate_node. rewrite (H n) by (by left). done.
Qed.

Lemma annotate_agree nodes edges required required' :
  (forall n, n ∈ nodes -> is_reqd required' n = is_reqd required n) ->
  annotate nodes edges required' = annotate nodes edges required.
Proof.
  intros H. unfold annotate, annotate_nodes.
  by rewrite (annotate_nodes_agree required required').
Qed.

(** C4, as the code has it.  An edge with an end outside [nodes] makes the
    builder throw a [TypeError] before any search step, and [steiner] returns
    nothing.  An entry of [required] outside [nodes] raises nothing: the
    call goes on as if the entry were not there. *)
Theorem dangling_edge_rejected connect nodes edges required :
  (dangling_edge nodes edges ->
   annotate nodes edges required = Thrown TypeError /\
   search_trace nodes edges required = [] /\
   steiner connect nodes edges required = Thrown TypeError) /\
  (forall r, r ∉ nodes ->
   steiner connect nodes edges (r :: required) =
   steiner connect nodes edges required).
Proof.
  split.
  - intros H. pose proof (annotate_throws nodes edges required H) as E.
    unfold search_trace, steiner. by rewrite E.
  - intros r Hr. unfold steiner. rewrite (annotate_agree _ _ required); [done|].
    intros n Hn. unfold is_reqd. simpl.
    destruct (r =? n) eqn:E; [|done]. apply Nat.eqb_eq in E. by subst.
Qed.

Lemma dangling_edge_rejected_witness :
  (annotate [1] [Edge.mk 1 2 1 0] [1] = Thrown TypeError /\
   search_trace [1] [Edge.mk 1 2 1 0] [1] = [] /\
   steiner connect_id [1] [Edge.mk 1 2 1 0] [1] = Thrown TypeError) /\
  steiner connect_id [1] [Edge.mk 1 2 1 0] [2; 1] =
  steiner connect_id [1] [Edge.mk 1 2 1 0] [1].
Proof.
  pose proof (dangling_edge_rejected connect_id [1] [Edge.mk 1 2 1 0] [1])
    as [A B].
  split.
  - apply A. exists (Edge.mk 1 2 1 0). split; [by left|]. right. simpl.
    intros H. apply list_elem_of_singleton in H. discriminate.
  - apply B. intros H. apply list_elem_of_singleton in H. discriminate.
Defined.

(** C4, as stated, fails: a required node that is not in [nodes] is not
    rejected. *)
Lemma stray_required_not_rejected :
  ~ (forall connect nodes edges required,
       dangling_edge nodes edges \/ stray_required nodes required ->
       exists err, steiner connect nodes edges required = Thrown err).
Proof.
  intros H. destruct (H connect_id [1] [] [2]) as [err E].
  - right. exists 2. split; [by left|].
    intros H'. apply list_elem_of_singleton in H'. discriminate.
  - rewrite (steiner_fuel_sound connect_id 1 [1] [] [2] (Returned [])) in E;
      [discriminate|]. vm_compute. reflexivity.
Qed.

(** ** Two required nodes and one edge *)

Lemma connect_id_contract : repair_contract connect_id.
Proof. split; [by intros soln xedges xnodes _|by intros soln xedges xnodes e]. Qed.

Lemma single_edge_connected e : soln_connected [e].
Proof.
  assert (xadjacent [e] (XEdge.from e) (XEdge.to e)) as A1.
  { exists e. split; [by left|]. by left. }
  assert (xadjacent [e] (XEdge.to e) (XEdge.from e)) as A2.
  { exists e. split; [by left|]. by right. }
  intros u v (e1&H1&Hu) (e2&H2&Hv).
  apply list_elem_of_singleton in H1, H2. subst e1 e2.
  destruct Hu as [<-|<-], Hv as [<-|<-];
    first [apply rtc_refl | by apply rtc_once].
Qed.

(** C7. Two required nodes and the one edge between them, whatever its
    direction and its weight [W]: [steiner] returns that edge and nothing
    else, for a repair that leaves connected solutions alone.  The edge is
    taken when the frontier of its source is examined; its weight is never
    read. *)
Theorem single_edge_returned connect a b W m required e :
  a <> b ->
  is_reqd required a = true -> is_reqd required b = true ->
  repair_idempotent connect ->
  e = Edge.mk a b W m \/ e = Edge.mk b a W m ->
  steiner connect [a; b] [e] required = Returned [e].
Proof.
  intros Hab Ha Hb Hc He.
  assert (get_xnode [new_xnode a true; new_xnode b true] a = Some 0) as Ga.
  { unfold get_xnode. simpl. by rewrite decide_True. }
  assert (get_xnode [new_xnode a true; new_xnode b true] b = Some 1) as Gb.
  { unfold get_xnode. simpl. rewrite decide_False by done.
    by rewrite decide_True. }
  destruct He as [-> | ->].
  - set (xe := XEdge.mk (Edge.mk a b W m) 0 1 W false false).
    assert (annotate [a; b] [Edge.mk a b W m] required =
            Returned (mk_graph [xe] 2 (mk_state
              [mk_xnode a true [xe] [] false false false false None
                 [mk_ppath 0 [] 0];
               mk_xnode b true [] [xe] false false false false None
                 [mk_ppath 1 [] 0]] [] 0))) as E.
    { unfold annotate, annotate_nodes. simpl. rewrite Ha, Hb. simpl.
      unfold annotate_edges. simpl. by rewrite Ga, Gb. }
    unfold steiner. rewrite E.
    erewrite (search_fuel_sound 3); [|vm_compute; reflexivity]. simpl.
    rewrite Hc; [done|]. apply single_edge_connected.
  - set (xe := XEdge.mk (Edge.mk b a W m) 1 0 W false false).
    assert (annotate [a; b] [Edge.mk b a W m] required =
            Returned (mk_graph [xe] 2 (mk_state
              [mk_xnode a true [] [xe] false false false false None
                 [mk_ppath 0 [] 0];
               mk_xnode b true [xe] [] false false false false None
                 [mk_ppath 1 [] 0]] [] 0))) as E.
    { unfold annotate, annotate_nodes. simpl. rewrite Ha, Hb. simpl.
      unfold annotate_edges. simpl. by rewrite Ga, Gb. }
    unfold steiner. rewrite E.
    erewrite (search_fuel_sound 4); [|vm_compute; reflexivity]. simpl.
    rewrite Hc; [done|]. apply single_edge_connected.
Qed.

Lemma single_edge_returned_witness :
  steiner connect_id [7; 9] [Edge.mk 9 7 12 0] [9; 7] =
  Returned [Edge.mk 9 7 12 0].
Proof.
  apply (single_edge_returned connect_id 7 9 12 0 [9; 7]).
  - lia.
  - reflexivity.
  - reflexivity.
  - apply connect_id_contract.
  - by right.
Defined.

(** ** Witnesses *)

Lemma witness_at_witnesses st p :
  witness_at st p = mjoin (witnesses (xnodes st) !! p).
Proof.
  unfold witness_at, witnesses. rewrite list_lookup_fmap.
  by destruct (xnodes st !! p).
Qed.

Lemma witnesses_mark_sources pth xs :
  witnesses (mark_sources pth xs) = witnesses xs.
Proof.
  revert xs. induction pth as [|e pth IH]; intros xs; [done|].
  simpl. rewrite IH. by apply fmap_alter_same.
Qed.

Lemma scan_witnesses n pth outs st :
  witnesses (xnodes (scan n pth outs st).1) = witnesses (xnodes st).
Proof.
  revert st. induction outs as [|out outs IH]; intros st; simpl; [done|].
  destruct (xnodes st !! XEdge.to out) as [t|]; [|done].
  destruct (reqd t && negb (XEdge.to out =? n) || in_permanent_web t).
  { simpl. unfold mark_permanent, witnesses.
    rewrite fmap_alter_same by done. apply witnesses_mark_sources. }
  destruct (in_temporary_web t).
  { destruct (witness t) as [w|]; [|done].
    destruct (wnode w =? n); [apply IH|].
    simpl. unfold mark_permanent, witnesses.
    rewrite fmap_alter_same by done. apply witnesses_mark_sources. }
  rewrite IH. simpl. by apply fmap_alter_same.
Qed.

Lemma visit_witnesses i st :
  match (visit i st).2 with
  | Arrived p pth m =>
      p < length (xnodes st) /\
      witnesses (xnodes (visit i st).1) =
      <[p := Some (mk_witness i pth)]> (witnesses (xnodes st))
  | Crashed => True
  | _ => witnesses (xnodes (visit i st).1) = witnesses (xnodes st)
  end.
Proof.
  unfold visit.
  destruct (xnodes st !! i) as [n|]; [|done].
  destruct (reqd n); [|done]. simpl.
  destruct (fifo n) as [|pp rest]; [done|].
  destruct (in_permanent_web n); [done|].
  destruct (requeue pp).
  { simpl. unfold witnesses. by rewrite !fmap_alter_same. }
  simpl.
  destruct (alter (set_fifo rest) i (xnodes st) !! point pp) as [xp|] eqn:Hp;
    [|done].
  set (st2 := with_xnodes _ _).
  pose proof (scan_witnesses i (path pp) (outgoing xp) st2) as S.
  assert (witnesses (xnodes st2) =
          <[point pp := Some (mk_witness i (path pp))]> (witnesses (xnodes st)))
    as S2.
  { subst st2. simpl. unfold witnesses.
    rewrite (list_fmap_alter _ _ (fun _ => Some (mk_witness i (path pp))))
      by (by apply Forall_forall).
    rewrite fmap_alter_same by done. by rewrite list_insert_alter. }
  apply lookup_lt_Some in Hp. rewrite length_alter in Hp.
  destruct (scan i (path pp) (outgoing xp) st2) as [st3 []]; simpl in *;
    try done; split; congruence.
Qed.

(** C8, as the code has it.  The witness of [p] records the latest arrival:
    a step in which the path [pth] of source [who s] arrives at [p] sets
    [p.witness] to that source and path, whatever witness [p] had, and every
    other step leaves [p.witness] as it was. *)
Theorem witness_is_latest_arrival nodes edges required s :
  s ∈ search_trace nodes edges required ->
  (forall p pth m, act s = Arrived p pth m ->
     witness_at (post s) p = Some (mk_witness (who s) pth)) /\
  (forall q, act s <> Crashed ->
     (forall pth m, act s <> Arrived q pth m) ->
     witness_at (post s) q = witness_at (pre s) q).
Proof.
  intros Hs.
  pose proof (search_trace_faithful nodes edges required) as F.
  rewrite Forall_forall in F. destruct (F s Hs) as (_&Hact&Hpost).
  pose proof (visit_witnesses (who s) (pre s)) as V.
  rewrite <- Hact, <- Hpost in V. split.
  - intros p pth m Ha. rewrite Ha in V. destruct V as [L V].
    rewrite witness_at_witnesses, V, list_lookup_insert_eq; [done|].
    unfold witnesses. by rewrite length_fmap.
  - intros q Hc Hq. rewrite !witness_at_witnesses.
    destruct (act s) as [| |p pth m|]; [by rewrite V..| |done].
    destruct V as [L V]. rewrite V, list_lookup_insert_ne; [done|].
    intros ->. by apply (Hq pth m).
Qed.

(** Evaluate [search_trace ns es rq] with [fuel] rounds; [Htr] is the equation. *)
Ltac run_trace fuel ns es rq Htr :=
  let tr := fresh "tr" in
  let E := fresh "E" in
  destruct (search_trace_fuel fuel ns es rq) as [tr|] eqn:E;
    [|by vm_compute in E];
  pose proof (search_trace_fuel_sound _ _ _ _ _ E) as Htr;
  vm_compute in E; injection E as <-.

(** Name the [k]-th step of the trace on the right of [Htr]. *)
Ltac pick_step Htr k Hin :=
  let s := fresh "s" in
  let L := fresh "L" in
  match type of Htr with
  | _ = ?tr =>
      destruct (tr !! k) as [s|] eqn:L; [|by vm_compute in L];
      pose proof (list_elem_of_lookup_2 _ _ _ L) as Hin;
      vm_compute in L; injection L as <-
  end.

Lemma witness_is_latest_arrival_witness :
  match search_trace late_nodes late_edges late_required !! 15 with
  | Some s =>
      witness_at (post s) 2 =
      Some (mk_witness 0 [XEdge.mk (Edge.mk 0 2 5 0) 0 2 5 false false])
  | None => False
  end.
Proof.
  run_trace 20 late_nodes late_edges late_required Htr.
  pick_step Htr 15 Hin. rewrite <- Htr in Hin.
  destruct (witness_is_latest_arrival _ _ _ _ Hin) as [A _].
  rewrite Htr. simpl lookup. cbv iota beta.
  eapply (A 2 _ NoMerge). reflexivity.
Defined.

(** C8, as stated, fails: node 2 is first reached from node 1, and its
    witness is later replaced by one owned by node 0. *)
Lemma witness_owner_replaced :
  ~ (forall nodes edges required,
       owner_kept (search_trace nodes edges required)).
Proof.
  intros H. specialize (H late_nodes late_edges late_required).
  run_trace 20 late_nodes late_edges late_required Htr.
  rewrite Htr in H. pick_step Htr 15 Hin.
  specialize (H _ 2 _ _ Hin eq_refl eq_refl). vm_compute in H. discriminate.
Qed.

(** ** The permanent web *)

Lemma permanent_alter g i (xs : list xnode) q x :
  keeps_permanent g ->
  xs !! q = Some x -> in_permanent_web x = true ->
  exists y, alter g i xs !! q = Some y /\ in_permanent_web y = true.
Proof.
  intros Hg Hq Hx. rewrite list_lookup_alter. case_decide.
  - subst. rewrite Hq. simpl. eauto.
  - eauto.
Qed.

Lemma permanent_mark_sources pth (xs : list xnode) q x :
  xs !! q = Some x -> in_permanent_web x = true ->
  exists y, mark_sources pth xs !! q = Some y /\ in_permanent_web y = true.
Proof.
  revert xs x. induction pth as [|e pth IH]; intros xs x Hq Hx; simpl; [eauto|].
  destruct (permanent_alter set_permanent (XEdge.from e) xs q x) as (y&Hy&Hy');
    [done..|].
  by eapply IH.
Qed.

Lemma permanent_with_alter g i st q :
  keeps_permanent g ->
  permanent_at st q -> permanent_at (with_xnodes (alter g i) st) q.
Proof. intros Hg (x&Hx&Hp). by eapply permanent_alter. Qed.

Lemma permanent_merge marked d added k st q :
  permanent_at st q ->
  permanent_at
    (mk_state (mark_permanent d (mark_sources marked (xnodes st))) added k) q.
Proof.
  intros (x&Hx&Hp).
  destruct (permanent_mark_sources marked _ _ _ Hx Hp) as (y&Hy&Hy').
  by eapply permanent_alter.
Qed.

Lemma scan_permanent n pth outs st q :
  permanent_at st q -> permanent_at (scan n pth outs st).1 q.
Proof.
  revert st. induction outs as [|out outs IH]; intros st H; simpl; [done|].
  destruct (xnodes st !! XEdge.to out) as [t|]; [|done].
  destruct (reqd t && negb (XEdge.to out =? n) || in_permanent_web t).
  { by apply permanent_merge. }
  destruct (in_temporary_web t).
  { destruct (witness t) as [w|]; [|done].
    destruct (wnode w =? n); [by apply IH|].
    by apply permanent_merge. }
  apply IH. apply permanent_with_alter; [by intros x|done].
Qed.

(** No body of the loop clears an [in_permanent_web] flag. *)
Lemma visit_permanent i st q :
  permanent_at st q -> permanent_at (visit i st).1 q.
Proof.
  intros H. unfold visit.
  destruct (xnodes st !! i) as [n|]; [|done].
  destruct (reqd n); [|done]. simpl.
  destruct (fifo n) as [|pp rest]; [done|].
  destruct (in_permanent_web n); [done|].
  assert (permanent_at (with_xnodes (alter (set_fifo rest) i) st) q) as H1
    by (apply permanent_with_alter; [by intros x|done]).
  destruct (requeue pp).
  { simpl. apply permanent_with_alter; [by intros x|done]. }
  simpl.
  destruct (alter (set_fifo rest) i (xnodes st) !! point pp) as [xp|]; [|done].
  set (st2 := with_xnodes _ _).
  assert (permanent_at st2 q) as H2
    by (apply permanent_with_alter; [by intros x|done]).
  pose proof (scan_permanent i (path pp) (outgoing xp) st2 q H2) as H3.
  by destruct (scan i (path pp) (outgoing xp) st2) as [st3 []].
Qed.

(** A required node in the permanent web is passed over (line 148). *)
Lemma visit_permanent_skips i st :
  permanent_at st i -> visit i st = (st, Skipped).
Proof.
  intros (x&Hx&Hp). unfold visit. rewrite Hx.
  destruct (reqd x); [|done]. simpl.
  destruct (fifo x); [done|]. by rewrite Hp.
Qed.

(** What holds after a step and is kept by every body holds before every
    later step. *)
Lemma steps_later (P : state -> Prop) st0 tr st :
  (forall i st, P st -> P (visit i st).1) ->
  steps st0 tr st ->
  forall j s1, tr !! j = Some s1 -> P (post s1) ->
  P st /\ forall k s2, j < k -> tr !! k = Some s2 -> P (pre s2).
Proof.
  intros Hkeep. induction 1 as [|tr st i Hsteps IH Hi]; intros j s1 Hj HP.
  { by rewrite lookup_nil in Hj. }
  destruct (decide (j < length tr)) as [Hlt|Hge].
  - rewrite lookup_app_l in Hj by done.
    destruct (IH _ _ Hj HP) as [Hst Hk]. split; [by apply Hkeep|].
    intros k s2 Hjk Hk2. destruct (decide (k < length tr)) as [Hk'|Hk'].
    + rewrite lookup_app_l in Hk2 by done. by eapply Hk.
    + rewrite lookup_app_r in Hk2 by lia.
      destruct (k - length tr) as [|?]; [|done]. by injection Hk2 as <-.
  - rewrite lookup_app_r in Hj by lia.
    destruct (j - length tr) as [|d] eqn:Hd; [|done].
    injection Hj as <-. simpl in HP. split; [done|].
    intros k s2 Hjk Hk2. rewrite lookup_app_r in Hk2 by lia.
    destruct (k - length tr) as [|?] eqn:Hd'; [lia|done].
Qed.

(** C9, as the code has it.  The flag [in_permanent_web] is never cleared,
    and once it is set on a required node [n] the queue of [n] is never
    popped again: every later body of the loop for [n] is skipped and
    changes nothing. *)
Theorem permanent_source_retired nodes edges required j k s1 s2 :
  search_trace nodes edges required !! j = Some s1 ->
  search_trace nodes edges required !! k = Some s2 ->
  j < k ->
  (forall q, permanent_at (post s1) q -> permanent_at (pre s2) q) /\
  (permanent_at (post s1) (who s2) ->
   act s2 = Skipped /\ post s2 = pre s2).
Proof.
  intros Hj Hk Hjk.
  assert (exists st0 st, steps st0 (search_trace nodes edges required) st)
    as (st0&st&Hsteps).
  { unfold search_trace.
    destruct (annotate nodes edges required) as [g|].
    - eexists _, _. apply search_steps.
    - exists (mk_state [] [] 0), (mk_state [] [] 0). constructor. }
  assert (forall q, permanent_at (post s1) q -> permanent_at (pre s2) q) as M.
  { intros q Hq.
    destruct (steps_later (fun st => permanent_at st q) _ _ _
                (fun i st => visit_permanent i st q) Hsteps _ _ Hj Hq)
      as [_ Hl].
    by eapply Hl. }
  split; [done|]. intros Hp. apply M in Hp.
  pose proof (steps_faithful _ _ _ Hsteps) as F.
  rewrite Forall_forall in F.
  destruct (F s2 (list_elem_of_lookup_2 _ _ _ Hk)) as (_&Hact&Hpost).
  rewrite (visit_permanent_skips _ _ Hp) in Hact, Hpost. done.
Qed.

Lemma permanent_source_retired_witness :
  match search_trace meet_nodes meet_edges meet_required !! 7,
        search_trace meet_nodes meet_edges meet_required !! 10 with
  | Some s1, Some s2 => act s2 = Skipped /\ post s2 = pre s2
  | _, _ => False
  end.
Proof.
  run_trace 30 meet_nodes meet_edges meet_required Htr.
  destruct (search_trace meet_nodes meet_edges meet_required !! 7)
    as [s1|] eqn:L1; [|by rewrite Htr in L1].
  destruct (search_trace meet_nodes meet_edges meet_required !! 10)
    as [s2|] eqn:L2; [|by rewrite Htr in L2].
  apply (permanent_source_retired _ _ _ 7 10 s1 s2 L1 L2); [lia|].
  rewrite Htr in L1, L2. vm_compute in L1, L2.
  injection L1 as <-. injection L2 as <-.
  eexists. split; reflexivity.
Defined.

(** C9, as stated, fails: node 3 is in the permanent web when the path of
    node 0 arrives at it, and it is marked, given a new witness and
    scanned like any other point. *)
Lemma permanent_node_processed :
  ~ (forall nodes edges required,
       heads_fresh (search_trace nodes edges required)).
Proof.
  intros H. specialize (H meet_nodes meet_edges meet_required).
  run_trace 30 meet_nodes meet_edges meet_required Htr.
  rewrite Htr in H. pick_step Htr 23 Hin.
  refine (H _ 3 _ NoMerge Hin eq_refl _).
  eexists. split; reflexivity.
Qed.

(** ** The caller's data *)




(** ** Connecting the required nodes *)











(** ** Termination and the exit of the main loop *)











(** ** The order of arrivals in one queue *)











Section QueueOrder.
Variable good : xedge -> Prop.
Variable N : nat.
Hypothesis good_to : forall e, good e -> XEdge.to e < N.
Hypothesis good_positive : forall e, good e -> (1 <= XEdge.weight e)%Z.



End QueueOrder.






(** ** The builder, in full (lines 23-71 and 107-112) *)

Lemma annotate_nodes_snd required nodes acc :
  (fold_left (annotate_node required) nodes acc).2 =
  acc.2 + length (filter (fun n => is_reqd required n = true) nodes).
Proof.
  revert acc. induction nodes as [|n nodes IH]; intros acc; simpl; [lia|].
  rewrite IH, filter_cons. simpl.
  destruct (is_reqd required n); case_decide; simpl; try done; lia.
Qed.

Lemma annotate_edges_wired es xs xes :
  (forall i x, xs !! i = Some x -> wired xes i x) ->
  match fold_left annotate_edge es (Returned (xs, xes)) with
  | Thrown _ => True
  | Returned (xs', xes') => forall i x, xs' !! i = Some x -> wired xes' i x
  end.
Proof.
  revert xs xes. induction es as [|e es IH]; intros xs xes H; simpl; [done|].
  destruct (get_xnode xs (Edge.from e)) as [f|];
    [|by rewrite annotate_edge_thrown].
  destruct (get_xnode xs (Edge.to e)) as [t|];
    [|by rewrite annotate_edge_thrown].
  apply IH. intros i x Hx.
  rewrite !list_lookup_alter in Hx. unfold wired. rewrite !filter_app.
  rewrite !filter_cons, !filter_nil. simpl.
  repeat case_decide; subst; simpl in *;
    destruct (xs !! i) as [y|] eqn:Hy; simplify_eq/=;
    destruct (H _ _ Hy) as [-> ->]; by rewrite ?app_nil_r.
Qed.







Lemma index_of_first nodes n i j :
  index_of nodes n = Some i -> nodes !! j = Some n -> i <= j.
Proof.
  unfold index_of. intros H Hj. apply fmap_Some in H as ([k m]&H&->).
  apply list_find_Some in H as (_&_&H). simpl.
  destruct (decide (k <= j)) as [|Hlt]; [done|].
  exfalso. apply (H j n Hj); [lia|done].
Qed.

(** The ends of a built edge are the first places of the caller's ends. *)
Lemma built_first nodes edges e :
  built nodes edges e ->
  index_of nodes (Edge.from (XEdge.edge e)) = Some (XEdge.from e) /\
  index_of nodes (Edge.to (XEdge.edge e)) = Some (XEdge.to e).
Proof.
  intros [_ H]. unfold wrap in H.
  destruct (index_of nodes (Edge.from (XEdge.edge e))) as [f|]; [|done].
  destruct (index_of nodes (Edge.to (XEdge.edge e))) as [t|]; [|done].
  by injection H as <-.
Qed.

Lemma annotate_shape nodes edges required g :
  annotate nodes edges required = Returned g ->
  reqd <$> xnodes (g_start g) = is_reqd required <$> nodes /\
  (forall i x, xnodes (g_start g) !! i = Some x -> wired (g_xedges g) i x) /\
  g_reqds g = length (filter (fun n => is_reqd required n = true) nodes) /\
  solved_reqds (g_start g) = 0.
Proof.
  unfold annotate, annotate_nodes.
  pose proof (annotate_nodes_fst required nodes ([], 0)) as E.
  pose proof (annotate_nodes_snd required nodes ([], 0)) as E2.
  destruct (fold_left (annotate_node required) nodes ([], 0)) as [xs reqds].
  simpl in E, E2. subst xs reqds.
  set (xs := _ <$> nodes).
  assert (node <$> xs = nodes) as Hn.
  { subst xs. rewrite <- list_fmap_compose. apply list_fmap_id. }
  assert (Forall (pristine nodes edges) xs) as Hp.
  { subst xs. apply Forall_fmap, Forall_forall. intros n _.
    by repeat split. }
  pose proof (annotate_edges_spec nodes edges edges xs [] Hn Hp
                (Forall_nil_2 _)) as S.
  pose proof (annotate_edges_wired edges xs []) as W.
  unfold annotate_edges.
  destruct (fold_left annotate_edge edges (Returned (xs, []))) as
    [[xs' xes]|err]; [|done].
  destruct S as (S1&S2&S3&S4&S5); [by apply Forall_forall|].
  intros [= <-]. simpl. split_and!; try done.
  - transitivity (reqd <$> xs').
    + apply list_eq. intros i.
      rewrite !list_lookup_fmap, list_lookup_imap.
      destruct (xs' !! i) as [y|]; [|done]. simpl. unfold seed.
      by destruct (reqd y) eqn:R; simpl; rewrite ?R.
    + rewrite S2. subst xs. by rewrite <- list_fmap_compose.
  - intros i x H. rewrite list_lookup_imap in H.
    destruct (xs' !! i) as [y|] eqn:Hy; [|done]. injection H as <-.
    assert (wired xes i y) as [W1 W2].
    { apply W; [|done]. subst xs. intros j z Hz.
      rewrite list_lookup_fmap in Hz.
      destruct (nodes !! j); [|done]. by injection Hz as <-. }
    unfold wired, seed. by destruct (reqd y).
Qed.

(** X2. What the builder hands to the search.  The annotated nodes wrap the
    caller's nodes in order, [reqd] telling whether the node occurs in
    [required]; the annotated edges wrap the caller's edges in order, each
    end being the first place of the caller's node, the weight copied; the
    [outgoing] and [incoming] lists of a node hold exactly the annotated
    edges from it and to it, in the order of [edges]; [reqds] counts the
    entries of [nodes] that occur in [required]; and every required node, and
    no other, starts with a queue holding the empty path to itself. *)
Theorem builder_contract nodes edges required g :
  annotate nodes edges required = Returned g ->
  node <$> xnodes (g_start g) = nodes /\
  reqd <$> xnodes (g_start g) = is_reqd required <$> nodes /\
  (forall n, is_reqd required n = true <-> n ∈ required) /\
  wrap nodes <$> edges = Some <$> g_xedges g /\
  (forall i x, xnodes (g_start g) !! i = Some x ->
     outgoing x = filter (fun e => XEdge.from e = i) (g_xedges g) /\
     incoming x = filter (fun e => XEdge.to e = i) (g_xedges g) /\
     seeded i x) /\
  g_reqds g = length (filter (fun n => is_reqd required n = true) nodes) /\
  soln (g_start g) = [] /\ solved_reqds (g_start g) = 0.
Proof.
  intros Ha. pose proof (annotate_spec _ _ _ _ Ha) as (_&Hb&He&Hn&Hs&Hseed).
  pose proof (annotate_shape _ _ _ _ Ha) as (Hr&Hw&Hc&Hz).
  split_and!; try done.
  - intros n. unfold is_reqd. rewrite existsb_exists. split.
    + intros (r&Hr'&E). apply Nat.eqb_eq in E. subst.
      by apply list_elem_of_In.
    + intros H. exists n. split; [by apply list_elem_of_In|].
      by apply Nat.eqb_eq.
  - rewrite <- He, <- list_fmap_compose. apply list_eq. intros i.
    rewrite !list_lookup_fmap.
    destruct (g_xedges g !! i) as [e|] eqn:Hi; [|done]. simpl. f_equal.
    rewrite Forall_forall in Hb. apply Hb.
    by eapply list_elem_of_lookup_2.
  - intros i x Hx. destruct (Hw i x Hx). split_and!; auto.
Qed.

Lemma builder_contract_witness :
  exists g, annotate meet_nodes meet_edges meet_required = Returned g /\
    node <$> xnodes (g_start g) = meet_nodes /\
    g_reqds g = 3.
Proof.
  destruct (annotate meet_nodes meet_edges meet_required) as [g|] eqn:Ha;
    [|by vm_compute in Ha].
  exists g. split; [done|].
  destruct (builder_contract _ _ _ _ Ha) as (H1&_&_&_&_&H6&_).
  split; [done|]. rewrite H6. reflexivity.
Defined.

(** X3. [get_xnode] finds the first annotated node wrapping a caller's node,
    so when [nodes] lists a node twice every edge is attached to the first
    copy: a later copy has no outgoing and no incoming edge. *)
Theorem duplicate_node_has_no_edges nodes edges required g i j n x :
  annotate nodes edges required = Returned g ->
  i < j -> nodes !! i = Some n -> nodes !! j = Some n ->
  xnodes (g_start g) !! j = Some x ->
  outgoing x = [] /\ incoming x = [].
Proof.
  intros Ha Hij Hi Hj Hx.
  pose proof (annotate_spec _ _ _ _ Ha) as (_&Hb&_).
  pose proof (annotate_shape _ _ _ _ Ha) as (_&Hw&_).
  destruct (Hw j x Hx) as [-> ->]. rewrite Forall_forall in Hb.
  split.
  - destruct (filter _ _) as [|e l] eqn:E; [done|]. exfalso.
    assert (e ∈ filter (fun e => XEdge.from e = j) (g_xedges g)) as He
      by (rewrite E; by left).
    apply list_elem_of_filter in He as [Hf He].
    pose proof (Hb e He) as B. destruct (built_first _ _ _ B) as [F _].
    destruct (built_ends _ _ _ B) as [F' _]. rewrite Hf in F, F'.
    assert (Edge.from (XEdge.edge e) = n) as En by congruence.
    rewrite En in F. pose proof (index_of_first _ _ _ _ F Hi). lia.
  - destruct (filter _ _) as [|e l] eqn:E; [done|]. exfalso.
    assert (e ∈ filter (fun e => XEdge.to e = j) (g_xedges g)) as He
      by (rewrite E; by left).
    apply list_elem_of_filter in He as [Hf He].
    pose proof (Hb e He) as B. destruct (built_first _ _ _ B) as [_ F].
    destruct (built_ends _ _ _ B) as [_ F']. rewrite Hf in F, F'.
    assert (Edge.to (XEdge.edge e) = n) as En by congruence.
    rewrite En in F. pose proof (index_of_first _ _ _ _ F Hi). lia.
Qed.

Lemma duplicate_node_has_no_edges_witness :
  exists g x, annotate [5; 5] [Edge.mk 5 5 1 0] [5] = Returned g /\
    xnodes (g_start g) !! 1 = Some x /\
    outgoing x = [] /\ incoming x = [].
Proof.
  destruct (annotate [5; 5] [Edge.mk 5 5 1 0] [5]) as [g|] eqn:Ha;
    [|by vm_compute in Ha].
  destruct (xnodes (g_start g) !! 1) as [x|] eqn:Hx.
  2:{ vm_compute in Ha. injection Ha as <-. by vm_compute in Hx. }
  exists g, x. split; [done|]. split; [done|].
  apply (duplicate_node_has_no_edges [5; 5] [Edge.mk 5 5 1 0] [5] g 0 1 5 x);
    [done|lia|done..].
Defined.

(** ** The bodies of the loop, case by case *)

Lemma push_all_nil n st : push_all n [] st = st.
Proof.
  destruct st as [xs s k]. unfold push_all, with_xnodes. simpl. f_equal.
  apply list_alter_id. intros [? ? ? ? ? ? ? ? ? q]. unfold set_fifo. simpl.
  by rewrite app_nil_r.
Qed.

Lemma push_all_cons n c ps st :
  push_all n ps (with_xnodes (alter (fifo_push c) n) st) =
  push_all n (c :: ps) st.
Proof.
  unfold push_all, with_xnodes. simpl. f_equal.
  rewrite list_alter_alter_eq. apply list_alter_ext; [|done].
  intros x _. unfold fifo_push, set_fifo. simpl. by rewrite <- app_assoc.
Qed.

Lemma flags_at_alter g i st d :
  (forall x, flags (g x) = flags x) ->
  flags_at (with_xnodes (alter g i) st) d = flags_at st d.
Proof.
  intros H. unfold flags_at. simpl. rewrite list_lookup_alter.
  case_decide; [|done]. subst. destruct (xnodes st !! d); simpl; [|done].
  by rewrite H.
Qed.

Lemma scan_cases n pth outs st :
  scanned n pth outs st (scan n pth outs st).2 (scan n pth outs st).1.
Proof.
  revert st. induction outs as [|out outs IH]; intros st; simpl.
  { exists []. split_and!; [done|constructor|]. simpl.
    by rewrite push_all_nil. }
  destruct (xnodes st !! XEdge.to out) as [t|] eqn:Ht.
  2:{ exists []. split_and!; [apply sublist_nil_l|constructor|done]. }
  assert (flags_at st (XEdge.to out) = Some (flags t)) as Hf
    by (unfold flags_at; by rewrite Ht).
  destruct (reqd t && negb (XEdge.to out =? n) || in_permanent_web t) eqn:C.
  { exists []. split_and!; [apply sublist_nil_l|constructor|]. simpl.
    exists out. rewrite push_all_nil. split_and!; [by left|done| |done].
    exists (reqd t), (in_permanent_web t), (in_temporary_web t), (witness t).
    split; [done|]. apply orb_true_iff in C as [C|C]; [left|by right].
    apply andb_true_iff in C as [C1 C2]. split; [done|].
    apply negb_true_iff in C2. by apply Nat.eqb_neq. }
  apply orb_false_iff in C as [C1 C2].
  assert (reqd t = true -> XEdge.to out = n) as Hr.
  { intros R. rewrite R in C1. simpl in C1. apply negb_false_iff in C1.
    by apply Nat.eqb_eq. }
  destruct (in_temporary_web t) eqn:T.
  { destruct (witness t) as [w|] eqn:W.
    2:{ exists []. split_and!; [apply sublist_nil_l|constructor|done]. }
    destruct (wnode w =? n) eqn:E.
    - apply Nat.eqb_eq in E.
      destruct (IH st) as (ps&Hsub&Hfr&Hm). exists ps.
      split_and!; [by apply sublist_cons|done|].
      destruct ((scan n pth outs st).2) as [|d|d|]; [| | |done].
      + destruct Hm as [-> Hall]. split; [done|]. constructor; [|done].
        left. exists (reqd t), w. unfold flags in Hf.
        rewrite C2, T, W in Hf. done.
      + destruct Hm as (o&Ho&?&?&?). exists o. split_and!; [by right|done..].
      + destruct Hm as (o&w'&Ho&?&?&?). exists o, w'.
        split_and!; [by right|done..].
    - apply Nat.eqb_neq in E.
      exists []. split_and!; [apply sublist_nil_l|constructor|]. simpl.
      exists out, w. rewrite push_all_nil. split_and!; [by left|done| |done].
      exists (reqd t). unfold flags in Hf. rewrite C2, T, W in Hf. done. }
  set (st' := with_xnodes _ st).
  assert (forall d, flags_at st' d = flags_at st d) as Hfl
    by (intros d; by apply flags_at_alter).
  destruct (IH st') as (ps&Hsub&Hfr&Hm). exists (out :: ps).
  split_and!.
  - by apply sublist_skip.
  - constructor.
    + exists (reqd t), (witness t). unfold flags in Hf.
      rewrite C2, T in Hf. done.
    + eapply Forall_impl; [exact Hfr|]. intros o (r&w&H1&H2).
      exists r, w. by rewrite <- Hfl.
  - simpl. change (mk_ppath (XEdge.to out) (pth ++ [out]) (XEdge.weight out))
      with (child pth out) in *.
    subst st'. rewrite push_all_cons in Hm.
    destruct ((scan n pth outs _).2) as [|d|d|]; [| | |done].
    + destruct Hm as [-> Hall]. split; [done|]. constructor.
      * right. by left.
      * eapply Forall_impl; [exact Hall|]. intros o [(r&w&H1&H2)|Ho].
        -- left. exists r, w. by rewrite <- Hfl.
        -- right. by right.
    + destruct Hm as (o&Ho&?&(r&p&t'&w&H1&H2)&?). exists o.
      split_and!; [by right|done| |done].
      exists r, p, t', w. by rewrite <- Hfl.
    + destruct Hm as (o&w&Ho&?&(r&H1&H2)&?). exists o, w.
      split_and!; [by right|done| |done].
      exists r. by rewrite <- Hfl.
Qed.

Lemma visit_cases i st :
  match (visit i st).2 with
  | Skipped => (visit i st).1 = st
  | Requeued =>
      exists n pp rest pp',
        shifted i st n pp rest /\ requeue pp = Some pp' /\
        (visit i st).1 = with_xnodes (alter (set_fifo (rest ++ [pp'])) i) st
  | Arrived p pth m =>
      exists n pp rest xp,
        shifted i st n pp rest /\ requeue pp = None /\
        p = point pp /\ pth = path pp /\ xnodes st !! p = Some xp /\
        m <> Fault /\
        scanned i pth (outgoing xp) (arrive i p pth rest st) m (visit i st).1
  | Crashed => True
  end.
Proof.
  unfold visit.
  destruct (xnodes st !! i) as [n|] eqn:Hn; [|done].
  destruct (reqd n) eqn:R; [|done]. simpl.
  destruct (fifo n) as [|pp rest] eqn:Hq; [done|].
  destruct (in_permanent_web n) eqn:P; [done|].
  destruct (requeue pp) as [pp'|] eqn:Hr.
  { simpl. exists n, pp, rest, pp'. split_and!; try done.
    unfold with_xnodes. simpl. f_equal. by rewrite list_alter_alter_eq. }
  simpl.
  destruct (alter (set_fifo rest) i (xnodes st) !! point pp) as [xp|] eqn:Hp;
    [|done].
  assert (exists xq, xnodes st !! point pp = Some xq /\
                     outgoing xq = outgoing xp) as (xq&Hxq&Ho).
  { rewrite list_lookup_alter in Hp. case_decide.
    - subst. rewrite Hn in Hp. injection Hp as <-. by exists n.
    - by exists xp. }
  pose proof (scan_cases i (path pp) (outgoing xp)
                (arrive i (point pp) (path pp) rest st)) as S.
  unfold arrive in S.
  destruct (scan i (path pp) (outgoing xp) _) as [st3 m]. simpl in S.
  destruct m; [| | |done]; simpl; exists n, pp, rest, xq; rewrite Ho;
    by split_and!.
Qed.

(** ** Paths are walks from their searching node *)

Lemma chain_snoc a pth b e :
  chain a pth b -> XEdge.from e = b -> chain a (pth ++ [e]) (XEdge.to e).
Proof.
  revert a. induction pth as [|e' pth IH]; intros a; simpl.
  - by intros -> ->.
  - intros [-> H] He. split; [done|]. by apply IH.
Qed.

Lemma chain_app a pth b pth' c :
  chain a pth b -> chain b pth' c -> chain a (pth ++ pth') c.
Proof.
  revert a. induction pth as [|e pth IH]; intros a; simpl.
  - by intros ->.
  - intros [-> H] H'. split; [done|]. by apply IH.
Qed.

Lemma statics_lookup xs ys p x :
  statics xs = statics ys -> xs !! p = Some x ->
  exists y, ys !! p = Some y /\ static y = static x.
Proof.
  intros H Hx. apply (f_equal (fun l => l !! p)) in H.
  unfold statics in H. rewrite !list_lookup_fmap, Hx in H.
  destruct (ys !! p) as [y|] eqn:Hy; [|discriminate].
  exists y. split; [done|]. simpl in H. congruence.
Qed.

Lemma reqd_in_statics xs ys i :
  statics xs = statics ys -> reqd_in xs i -> reqd_in ys i.
Proof.
  intros H (x&Hx&R). destruct (statics_lookup _ _ _ _ H Hx) as (y&Hy&E).
  exists y. split; [done|]. injection E as ? ? ? ?. congruence.
Qed.

Lemma tidy_statics xs ys : statics xs = statics ys -> tidy xs -> tidy ys.
Proof.
  intros H T p y e Hy He.
  destruct (statics_lookup _ _ _ _ (eq_sym H) Hy) as (x&Hx&E).
  apply (T p x e Hx). injection E as ? ? ? ?. congruence.
Qed.

(** An update of the node at [i] that touches no static field keeps the
    paths well shaped, if the queue and the witness it leaves are. *)
Lemma paths_ok_alter g i xs :
  (forall x, static (g x) = static x) ->
  (forall x, xs !! i = Some x ->
     (forall pp, pp ∈ fifo (g x) -> reqd x = true /\ chain i (path pp) (point pp)) /\
     (forall w, witness (g x) = Some w ->
        reqd_in xs (wnode w) /\ chain (wnode w) (wpath w) i)) ->
  paths_ok xs -> paths_ok (alter g i xs).
Proof.
  intros Hs Hg (T&Q&W).
  assert (statics xs = statics (alter g i xs)) as St.
  { unfold statics. by rewrite fmap_alter_same. }
  split_and!.
  - by apply (tidy_statics xs).
  - intros j y pp Hy Hpp. rewrite list_lookup_alter in Hy. case_decide.
    + subst. destruct (xs !! j) as [x|] eqn:Hx; [|done].
      injection Hy as <-. destruct (Hg x eq_refl) as [G _].
      destruct (G pp Hpp) as [R C]. split; [|done].
      pose proof (Hs x) as E. injection E as ? ? ? ?. congruence.
    + by eapply Q.
  - intros q y w Hy Hw. rewrite list_lookup_alter in Hy. case_decide.
    + subst. destruct (xs !! q) as [x|] eqn:Hx; [|done].
      injection Hy as <-. destruct (Hg x eq_refl) as [_ G].
      destruct (G w Hw) as [R C]. split; [|done].
      by apply (reqd_in_statics xs).
    + destruct (W q y w Hy Hw) as [R C]. split; [|done].
      by apply (reqd_in_statics xs).
Qed.

Lemma paths_ok_same g i xs :
  (forall x, static (g x) = static x) ->
  (forall x, fifo (g x) = fifo x) -> (forall x, witness (g x) = witness x) ->
  paths_ok xs -> paths_ok (alter g i xs).
Proof.
  intros Hs Hf Hw P. apply paths_ok_alter; [done| |done].
  destruct P as (T&Q&W). intros x Hx. split.
  - intros pp. rewrite Hf. by apply Q.
  - intros w. rewrite Hw. by apply W.
Qed.

Lemma paths_ok_mark_sources pth xs :
  paths_ok xs -> paths_ok (mark_sources pth xs).
Proof.
  revert xs. induction pth as [|e pth IH]; intros xs H; [done|].
  simpl. apply IH. by apply paths_ok_same.
Qed.

Lemma paths_ok_merged marked d xs :
  paths_ok xs -> paths_ok (mark_permanent d (mark_sources marked xs)).
Proof.
  intros H. apply paths_ok_same; [done..|]. by apply paths_ok_mark_sources.
Qed.

Lemma paths_ok_arrive i st n pp rest :
  shifted i st n pp rest -> paths_ok (xnodes st) ->
  paths_ok (xnodes (arrive i (point pp) (path pp) rest st)) /\
  reqd_in (xnodes st) i /\ chain i (path pp) (point pp).
Proof.
  intros (Hn&R&_&Hq) P. pose proof P as (T&Q&W).
  assert (chain i (path pp) (point pp)) as C.
  { apply (Q i n pp Hn). rewrite Hq. by left. }
  assert (reqd_in (xnodes st) i) as Ri by (by exists n).
  split_and!; [|done..].
  assert (paths_ok (alter (set_fifo rest) i (xnodes st))) as P1.
  { apply paths_ok_alter; [done| |done]. intros x Hx. split.
    - intros pp' Hpp'. simpl in Hpp'. rewrite Hn in Hx. injection Hx as <-.
      apply (Q i n pp' Hn). rewrite Hq. by right.
    - intros w. simpl. by apply W. }
  unfold arrive. simpl. apply paths_ok_alter; [done| |done].
  intros x Hx. split.
  - intros pp'. simpl. destruct P1 as (_&Q1&_). by apply Q1.
  - intros w. simpl. intros [= <-]. simpl. split; [|done].
    apply (reqd_in_statics (xnodes st)); [|done].
    unfold statics. by rewrite fmap_alter_same.
Qed.

Lemma paths_ok_push_all i pth p xp outs st :
  paths_ok (xnodes st) -> reqd_in (xnodes st) i -> chain i pth p ->
  xnodes st !! p = Some xp -> outs `sublist_of` outgoing xp ->
  paths_ok (xnodes (push_all i (child pth <$> outs) st)).
Proof.
  intros P (n&Hn&R) C Hp Hsub. pose proof P as (T&Q&W).
  unfold push_all. simpl. apply paths_ok_alter; [done| |done].
  intros x Hx. rewrite Hn in Hx. injection Hx as <-. split.
  - intros pp Hpp. simpl in Hpp. split; [done|].
    apply elem_of_app in Hpp as [Hpp|Hpp]; [by apply (Q i n pp Hn)|].
    apply list_elem_of_fmap in Hpp as (out&->&Hout). simpl.
    apply (chain_snoc i pth p); [done|]. apply (T p xp out Hp).
    by eapply elem_of_sublist.
  - intros w. simpl. by apply W.
Qed.

(** No body of the loop spoils the shape of the paths. *)
Lemma visit_paths_ok i st :
  (visit i st).2 <> Crashed ->
  paths_ok (xnodes st) -> paths_ok (xnodes (visit i st).1).
Proof.
  intros Hc P. pose proof (visit_cases i st) as V.
  destruct ((visit i st).2) as [| |p pth m|] eqn:E.
  - by rewrite V.
  - destruct V as (n&pp&rest&pp'&(Hn&R&_&Hq)&Hr&->). simpl.
    pose proof P as (T&Q&W).
    apply paths_ok_alter; [done| |done].
    intros x Hx. rewrite Hn in Hx. injection Hx as <-. split.
    + intros pp0 H0. simpl in H0. split; [done|].
      unfold requeue in Hr. destruct (1 <? endweight pp)%Z; [|done].
      injection Hr as <-.
      apply elem_of_app in H0 as [H0|H0].
      * apply (Q i n pp0 Hn). rewrite Hq. by right.
      * apply list_elem_of_singleton in H0 as ->. simpl.
        apply (Q i n pp Hn). rewrite Hq. by left.
    + intros w. simpl. by apply W.
  - destruct V as (n&pp&rest&xp&Hsh&Hr&->&->&Hp&Hnf&ps&Hsub&Hfr&Hm).
    destruct (paths_ok_arrive _ _ _ _ _ Hsh P) as (P2&Ri&C).
    set (st2 := arrive _ _ _ _ _) in *.
    assert (statics (xnodes st2) = statics (xnodes st)) as St.
    { subst st2. unfold arrive, statics. simpl.
      by rewrite !fmap_alter_same. }
    destruct (statics_lookup _ _ _ _ (eq_sym St) Hp) as (xq&Hxq&Exq).
    assert (outgoing xq = outgoing xp) as Ho
      by (injection Exq as ? ? ? ?; congruence).
    assert (paths_ok (xnodes (push_all i (child (path pp) <$> ps) st2))) as P1.
    { apply (paths_ok_push_all i (path pp) (point pp) xq); try done.
      - apply (reqd_in_statics (xnodes st)); by rewrite ?St.
      - by rewrite Ho. }
    simpl in Hm. destruct m as [|d|d|].
    + destruct Hm as [-> _]. done.
    + destruct Hm as (out&_&_&_&->). by apply paths_ok_merged.
    + destruct Hm as (out&w&_&_&_&->). by apply paths_ok_merged.
    + done.
  - done.
Qed.

(** ** Invariants of the search of a built graph *)

(** A property of states kept by every body of the loop that does not crash
    holds in every state of the search of a built graph. *)
Lemma search_invariant nodes edges required g (P : state -> Prop) :
  annotate nodes edges required = Returned g ->
  (forall i st, wf (built nodes edges) (length nodes) st ->
     (visit i st).2 <> Crashed -> P st -> P (visit i st).1) ->
  P (g_start g) ->
  P (final (search g)) /\
  Forall (fun s => P (pre s) /\ P (post s)) (trace (search g)).
Proof.
  intros Ha Hstep H0. pose proof (annotate_spec _ _ _ _ Ha) as (W&_).
  destruct (steps_invariant
              (fun st => wf (built nodes edges) (length nodes) st /\ P st)
              (g_start g) (trace (search g)) (final (search g)))
    as [[_ HP] HF]; [| |apply search_steps|].
  - intros i st [Hw Hp] Hi.
    destruct (visit_wf _ _ (built_to nodes edges) i st Hw) as [Hw' Hc].
    split; [done|]. apply Hstep; [done| |done]. apply Hc.
    destruct Hw as [<- _]. done.
  - by split.
  - split; [done|]. eapply Forall_impl; [exact HF|].
    by intros s [[_ ?] [_ ?]].
Qed.

Lemma start_paths_ok nodes edges required g :
  annotate nodes edges required = Returned g ->
  paths_ok (xnodes (g_start g)).
Proof.
  intros Ha. pose proof (annotate_spec _ _ _ _ Ha) as (_&_&_&_&_&Hseed).
  pose proof (annotate_shape _ _ _ _ Ha) as (_&Hw&_).
  split_and!.
  - intros p x e Hx He. destruct (Hw p x Hx) as [Ho _]. rewrite Ho in He.
    by apply list_elem_of_filter in He as [? _].
  - intros i x pp Hx Hpp. destruct (Hseed i x Hx) as (_&_&_&Hq).
    rewrite Hq in Hpp. destruct (reqd x); [|by apply elem_of_nil in Hpp].
    apply list_elem_of_singleton in Hpp as ->. done.
  - intros q x w Hx Hw'. destruct (Hseed q x Hx) as (_&_&Hn&_). congruence.
Qed.

Lemma search_paths_ok nodes edges required g :
  annotate nodes edges required = Returned g ->
  paths_ok (xnodes (final (search g))) /\
  Forall (fun s => paths_ok (xnodes (pre s)) /\ paths_ok (xnodes (post s)))
    (trace (search g)).
Proof.
  intros Ha.
  apply (search_invariant nodes edges required g
           (fun st => paths_ok (xnodes st))); [done| |].
  - intros i st _ Hc. by apply visit_paths_ok.
  - by eapply start_paths_ok.
Qed.

Lemma search_statics nodes edges required g :
  annotate nodes edges required = Returned g ->
  statics (xnodes (final (search g))) = statics (xnodes (g_start g)) /\
  Forall (fun s => statics (xnodes (pre s)) = statics (xnodes (g_start g)) /\
                   statics (xnodes (post s)) = statics (xnodes (g_start g)))
    (trace (search g)).
Proof.
  intros Ha.
  apply (search_invariant nodes edges required g
           (fun st => statics (xnodes st) = statics (xnodes (g_start g))));
    [done| |done].
  intros i st _ _ H. by rewrite visit_statics.
Qed.

(** The required annotated nodes are the copies of the entries of [nodes]
    that occur in [required]. *)
Lemma reqd_in_start nodes edges required g i :
  annotate nodes edges required = Returned g ->
  reqd_in (xnodes (g_start g)) i <->
  exists a, nodes !! i = Some a /\ is_reqd required a = true.
Proof.
  intros Ha. pose proof (annotate_shape _ _ _ _ Ha) as (Hr&_).
  apply (f_equal (fun l => l !! i)) in Hr. rewrite !list_lookup_fmap in Hr.
  unfold reqd_in. split.
  - intros (x&Hx&R). rewrite Hx in Hr.
    destruct (nodes !! i) as [a|]; [|discriminate]. exists a.
    split; [done|]. simpl in Hr. congruence.
  - intros (a&Hi&R). rewrite Hi in Hr.
    destruct (xnodes (g_start g) !! i) as [x|]; [|discriminate]. exists x.
    split; [done|]. simpl in Hr. congruence.
Qed.

(** A chain of built edges is a walk over the caller's edges. *)
Lemma chain_walk nodes edges i pth p a :
  Forall (built nodes edges) pth -> chain i pth p -> nodes !! i = Some a ->
  exists b, nodes !! p = Some b /\ walk a (XEdge.edge <$> pth) b.
Proof.
  revert i a. induction pth as [|e pth IH]; intros i a Hb Hc Hi; simpl in *.
  { subst. by exists a. }
  apply Forall_cons in Hb as [He Hb]. destruct Hc as [Hf Hc].
  destruct (built_ends _ _ _ He) as [F T]. rewrite Hf, Hi in F.
  destruct (IH _ _ Hb Hc T) as (b&Hp&Hw). exists b. split; [done|].
  split; [congruence|done].
Qed.

(** X4. Every path that arrives is a walk from its searching node: the
    first edge leaves the searching node, each edge starts where the one
    before ends, and the last ends at the node the path arrives at.  The
    searching node is a required node, and the edges of the path are the
    annotated copies of edges of the caller. *)
Theorem arrived_paths_are_walks nodes edges required s p pth m :
  s ∈ search_trace nodes edges required ->
  act s = Arrived p pth m ->
  chain (who s) pth p /\
  Forall (fun e => e ∈ edges) (XEdge.edge <$> pth) /\
  exists a b,
    nodes !! who s = Some a /\ nodes !! p = Some b /\
    is_reqd required a = true /\ walk a (XEdge.edge <$> pth) b.
Proof.
  intros Hs Hact. unfold search_trace in Hs.
  destruct (annotate nodes edges required) as [g|] eqn:Ha;
    [|by apply elem_of_nil in Hs].
  pose proof (search_paths_ok _ _ _ _ Ha) as [_ HP].
  pose proof (search_statics _ _ _ _ Ha) as [_ HS].
  pose proof (search_wf _ _ _ _ Ha) as (_&HW&_).
  pose proof (steps_faithful _ _ _ (search_steps g)) as HF.
  rewrite Forall_forall in HP, HS, HW, HF.
  destruct (HP s Hs) as [P _]. destruct (HS s Hs) as [S _].
  destruct (HW s Hs) as [(_&Wn&_) _]. destruct (HF s Hs) as (_&Hv&_).
  pose proof (visit_cases (who s) (pre s)) as V. rewrite <- Hv, Hact in V.
  destruct V as (n&pp&rest&xp&Hsh&Hr&->&->&Hp&_).
  destruct (paths_ok_arrive _ _ _ _ _ Hsh P) as (_&Ri&C).
  assert (Forall (built nodes edges) (path pp)) as Hb.
  { destruct Hsh as (Hn&_&_&Hq).
    pose proof (Forall_lookup_1 _ _ _ _ Wn Hn) as (_&Hfq&_).
    rewrite Hq in Hfq. by apply Forall_cons in Hfq as [[_ ?] _]. }
  split_and!; [done| |].
  - apply Forall_fmap. eapply Forall_impl; [exact Hb|]. by intros e [? _].
  - apply (reqd_in_statics _ _ _ S) in Ri.
    apply (reqd_in_start nodes edges required g) in Ri as (a&Hi&R); [|done].
    destruct (chain_walk _ _ _ _ _ _ Hb C Hi) as (b&Hpb&Hw).
    by exists a, b.
Qed.

Lemma arrived_paths_are_walks_witness :
  match search_trace meet_nodes meet_edges meet_required !! 7 with
  | Some s => chain 2 [XEdge.mk (Edge.mk 2 4 1 0) 2 4 1 false false] 4
  | None => False
  end.
Proof.
  run_trace 30 meet_nodes meet_edges meet_required Htr.
  pick_step Htr 7 Hin. rewrite <- Htr in Hin.
  rewrite Htr. simpl lookup. cbv iota beta.
  eapply (arrived_paths_are_walks _ _ _ _ _ _ _ Hin). reflexivity.
Defined.

(** ** The solution hangs on the required nodes *)

Lemma xreach_mono (es es' : list xedge) u v :
  (forall e, e ∈ es -> e ∈ es') -> xreach es u v -> xreach es' u v.
Proof.
  intros H. apply rtc_subrel. intros x y (e&He&Hxy). exists e. auto.
Qed.

Lemma chain_reach a pth b :
  chain a pth b ->
  xreach pth a b /\ forall e, e ∈ pth -> xreach pth a (XEdge.from e).
Proof.
  revert a. induction pth as [|e pth IH]; intros a; simpl.
  { intros ->. split; [apply rtc_refl|]. intros e He.
    by apply elem_of_nil in He. }
  intros [<- H]. destruct (IH _ H) as [IH1 IH2].
  assert (xreach (e :: pth) (XEdge.from e) (XEdge.to e)) as Hstep.
  { apply rtc_once. exists e. split; [by left|by left]. }
  assert (forall u v, xreach pth u v -> xreach (e :: pth) u v) as Hm.
  { intros u v. apply xreach_mono. intros e' He'. by right. }
  split.
  - eapply rtc_trans; [exact Hstep|]. by apply Hm.
  - intros e' He'. apply elem_of_cons in He' as [->|He']; [apply rtc_refl|].
    eapply rtc_trans; [exact Hstep|]. by apply Hm, IH2.
Qed.

Lemma mark_sources_permanent pth (xs : list xnode) q x :
  mark_sources pth xs !! q = Some x -> in_permanent_web x = true ->
  (exists y, xs !! q = Some y /\ in_permanent_web y = true) \/
  q ∈ XEdge.from <$> pth.
Proof.
  revert xs. induction pth as [|e pth IH]; intros xs Hq Hx; simpl in *.
  { left. eauto. }
  destruct (IH _ Hq Hx) as [(y&Hy&Hp)|Hin]; [|right; by right].
  unfold mark_permanent in Hy. rewrite list_lookup_alter in Hy.
  case_decide; [subst; right; by left|]. left. eauto.
Qed.

Lemma merged_permanent marked d added k st q :
  permanent_at
    (mk_state (mark_permanent d (mark_sources marked (xnodes st))) added k) q ->
  permanent_at st q \/ q ∈ XEdge.from <$> marked \/ q = d.
Proof.
  intros (x&Hx&Hp). simpl in Hx. unfold mark_permanent in Hx.
  rewrite list_lookup_alter in Hx. case_decide; [by right; right|].
  destruct (mark_sources_permanent _ _ _ _ Hx Hp) as [?|?]; [by left|].
  right. by left.
Qed.

(** A step that changes neither the solution nor any static field, and
    sets no permanent flag. *)
Lemma tethered_frame st st' :
  soln st' = soln st ->
  statics (xnodes st) = statics (xnodes st') ->
  (forall q, permanent_at st' q -> permanent_at st q) ->
  tethered st -> tethered st'.
Proof.
  intros Hs Hst Hp [T1 T2]. split.
  - intros e He. rewrite Hs in *. destruct (T1 e He) as (r&Hr&Hreach).
    exists r. split; [|done]. by apply (reqd_in_statics (xnodes st)).
  - intros q Hq. rewrite Hs. by apply T2, Hp.
Qed.

Lemma permanent_alter_inv g i st q :
  (forall x, in_permanent_web (g x) = in_permanent_web x) ->
  permanent_at (with_xnodes (alter g i) st) q -> permanent_at st q.
Proof.
  intros Hg (x&Hx&Hp). simpl in Hx. rewrite list_lookup_alter in Hx.
  case_decide; [|by exists x]. subst.
  destruct (xnodes st !! q) as [y|] eqn:Hy; [|done]. injection Hx as <-.
  exists y. split; [done|]. by rewrite <- Hg.
Qed.

Lemma tethered_alter g i st :
  (forall x, static (g x) = static x) ->
  (forall x, in_permanent_web (g x) = in_permanent_web x) ->
  tethered st -> tethered (with_xnodes (alter g i) st).
Proof.
  intros Hs Hp. apply tethered_frame; [done| |].
  - unfold statics. simpl. by rewrite fmap_alter_same.
  - intros q. by apply permanent_alter_inv.
Qed.

(** A merge: the edges [added] hang on required nodes, and the marked nodes
    are among their ends. *)
Lemma tethered_merge st added marked d k :
  tethered st ->
  (forall e, e ∈ added ->
     exists r, reqd_in (xnodes st) r /\ xreach added r (XEdge.from e)) ->
  (forall q, q ∈ XEdge.from <$> marked -> endpoint added q) ->
  endpoint added d ->
  tethered (mk_state (mark_permanent d (mark_sources marked (xnodes st)))
              (soln st ++ added) k).
Proof.
  intros [T1 T2] Hadd Hmark Hd.
  assert (statics (xnodes st) =
          statics (mark_permanent d (mark_sources marked (xnodes st)))) as St.
  { unfold mark_permanent, statics. rewrite fmap_alter_same by done.
    symmetry. apply statics_mark_sources. }
  assert (forall q, endpoint added q -> endpoint (soln st ++ added) q) as Hr.
  { intros q (e&He&Hq). exists e. split; [|done]. apply elem_of_app. by right. }
  split; simpl.
  - intros e He. apply elem_of_app in He as [He|He].
    + destruct (T1 e He) as (r&R&Hreach). exists r.
      split; [by apply (reqd_in_statics (xnodes st))|].
      eapply xreach_mono; [|exact Hreach].
      intros e' He'. apply elem_of_app. by left.
    + destruct (Hadd e He) as (r&R&Hreach). exists r.
      split; [by apply (reqd_in_statics (xnodes st))|].
      eapply xreach_mono; [|exact Hreach].
      intros e' He'. apply elem_of_app. by right.
  - intros q Hq. apply merged_permanent in Hq as [Hq|[Hq| ->]]; auto.
    destruct (T2 q Hq) as (e&He&Hqe). exists e. split; [|done].
    apply elem_of_app. by left.
Qed.

Lemma endpoint_from (es : list xedge) q :
  q ∈ XEdge.from <$> es -> endpoint es q.
Proof.
  intros H. apply list_elem_of_fmap in H as (e&->&He). exists e. auto.
Qed.

(** The state a scan starts from, and the state after its pushes, for a
    body of the loop in a state with well-shaped paths. *)
Lemma visit_scan_states i st n pp rest xp outs :
  shifted i st n pp rest -> xnodes st !! point pp = Some xp ->
  outs `sublist_of` outgoing xp ->
  paths_ok (xnodes st) ->
  let st2 := arrive i (point pp) (path pp) rest st in
  let st1 := push_all i (child (path pp) <$> outs) st2 in
  paths_ok (xnodes st2) /\ paths_ok (xnodes st1) /\
  statics (xnodes st) = statics (xnodes st2) /\
  statics (xnodes st) = statics (xnodes st1) /\
  reqd_in (xnodes st) i /\ chain i (path pp) (point pp) /\
  (forall out, out ∈ outgoing xp -> XEdge.from out = point pp).
Proof.
  intros Hsh Hp Hsub P st2 st1.
  destruct (paths_ok_arrive _ _ _ _ _ Hsh P) as (P2&Ri&C). fold st2 in P2.
  assert (statics (xnodes st) = statics (xnodes st2)) as St.
  { subst st2. unfold arrive, statics. simpl.
    by rewrite !fmap_alter_same. }
  destruct (statics_lookup _ _ _ _ St Hp) as (xq&Hxq&Exq).
  assert (outgoing xq = outgoing xp) as Ho
    by (injection Exq as ? ? ? ?; congruence).
  split_and!; try done.
  - apply (paths_ok_push_all i (path pp) (point pp) xq); try done.
    + by apply (reqd_in_statics (xnodes st)).
    + by rewrite Ho.
  - rewrite St. symmetry. by apply fmap_alter_same.
  - intros out Hout. destruct P as (T&_). by apply (T _ xp).
Qed.

Lemma witness_of_flags st d r p t w :
  flags_at st d = Some (r, p, t, Some w) ->
  exists x, xnodes st !! d = Some x /\ witness x = Some w.
Proof.
  unfold flags_at, flags. intros H.
  destruct (xnodes st !! d) as [x|]; [|done]. exists x. split; [done|].
  simpl in H. congruence.
Qed.

Lemma visit_tethered i st :
  (visit i st).2 <> Crashed ->
  paths_ok (xnodes st) /\ tethered st ->
  paths_ok (xnodes (visit i st).1) /\ tethered (visit i st).1.
Proof.
  intros Hc [P T]. split; [by apply visit_paths_ok|].
  pose proof (visit_cases i st) as V.
  destruct ((visit i st).2) as [| |p pth m|] eqn:E; [| | |done].
  - by rewrite V.
  - destruct V as (n&pp&rest&pp'&_&_&->). by apply tethered_alter.
  - destruct V as (n&pp&rest&xp&Hsh&Hr&->&->&Hp&Hnf&ps&Hsub&Hfr&Hm).
    destruct (visit_scan_states _ _ _ _ _ _ _ Hsh Hp Hsub P)
      as (P2&P1&S2&S1&Ri&C&Hout).
    set (st2 := arrive _ _ _ _ _) in *.
    set (st1 := push_all _ _ _) in *.
    assert (tethered st1) as T1.
    { subst st1 st2. apply tethered_alter; [done..|]. unfold arrive.
      apply tethered_alter; [done..|]. by apply tethered_alter. }
    destruct (chain_reach _ _ _ C) as [Rp Re].
    simpl in Hm. destruct m as [|d|d|]; [| | |done].
    + by destruct Hm as [-> _].
    + destruct Hm as (out&Ho&->&_&->). unfold terminal_merge.
      apply tethered_merge; [done| | |].
      * intros e He. exists i.
        split; [by apply (reqd_in_statics (xnodes st))|].
        apply elem_of_app in He as [He|He].
        -- eapply xreach_mono; [|by apply Re].
           intros e' He'. apply elem_of_app. by left.
        -- apply list_elem_of_singleton in He as ->. rewrite (Hout out Ho).
           eapply xreach_mono; [|exact Rp].
           intros e' He'. apply elem_of_app. by left.
      * intros q Hq. apply endpoint_from. rewrite fmap_app.
        apply elem_of_app. by left.
      * exists out. split; [|by right]. apply elem_of_app. right. by left.
    + destruct Hm as (out&w&Ho&->&(r&Hfl&_)&->). unfold cross_merge.
      destruct (witness_of_flags _ _ _ _ _ _ Hfl) as (x&Hx&Hw).
      destruct P2 as (_&_&W2). destruct (W2 _ _ _ Hx Hw) as [Rw Cw].
      destruct (chain_reach _ _ _ Cw) as [_ Rew].
      apply tethered_merge; [done| | |].
      * intros e He. apply elem_of_app in He as [He|He].
        { exists i. split; [by apply (reqd_in_statics (xnodes st))|].
          eapply xreach_mono; [|by apply Re].
          intros e' He'. apply elem_of_app. by left. }
        apply elem_of_app in He as [He|He].
        { exists (wnode w).
          split; [apply (reqd_in_statics (xnodes st2)); [|done];
                  by rewrite <- S2, S1|].
          eapply xreach_mono; [|by apply Rew].
          intros e' He'. apply elem_of_app. right. apply elem_of_app.
          by left. }
        apply list_elem_of_singleton in He as ->. exists i.
        split; [by apply (reqd_in_statics (xnodes st))|].
        rewrite (Hout out Ho). eapply xreach_mono; [|exact Rp].
        intros e' He'. apply elem_of_app. by left.
      * intros q Hq. by apply endpoint_from.
      * exists out. split; [|by right]. rewrite !elem_of_app. right. right.
        by left.
Qed.

(** The same reachability, through the caller's edges. *)
Lemma xreach_ureach nodes edges (es : list xedge) u v a :
  Forall (built nodes edges) es -> xreach es u v -> nodes !! u = Some a ->
  exists b, nodes !! v = Some b /\ ureach (XEdge.edge <$> es) a b.
Proof.
  intros Hb H. revert a. induction H as [u|u w v (e&He&Huw) _ IH]; intros a Hu.
  { exists a. split; [done|apply rtc_refl]. }
  rewrite Forall_forall in Hb. destruct (built_ends _ _ _ (Hb e He)) as [F T].
  assert (exists c, nodes !! w = Some c /\
            adjacent (XEdge.edge <$> es) a c) as (c&Hw&Hac).
  { destruct Huw as [[Hf Ht]|[Hf Ht]]; subst.
    - eexists. split; [exact T|]. exists (XEdge.edge e).
      split; [by apply list_elem_of_fmap_2|]. left. split; congruence.
    - eexists. split; [exact F|]. exists (XEdge.edge e).
      split; [by apply list_elem_of_fmap_2|]. right. split; congruence. }
  destruct (IH c Hw) as (b&Hv&Hcb). exists b. split; [done|].
  by eapply rtc_l.
Qed.

(** X5. The solution of the search hangs on the required nodes: from every
    edge in it, a required node of the caller can be reached over edges of
    the solution.  And every node in the permanent web is an end of an edge
    of the solution. *)
Theorem solution_edges_tethered nodes edges required g :
  annotate nodes edges required = Returned g ->
  (forall e, e ∈ soln (final (search g)) ->
     exists a, a ∈ nodes /\ is_reqd required a = true /\
       ureach (XEdge.edge <$> soln (final (search g))) a
         (Edge.from (XEdge.edge e))) /\
  (forall q, permanent_at (final (search g)) q ->
     endpoint (soln (final (search g))) q).
Proof.
  intros Ha.
  destruct (search_invariant nodes edges required g
              (fun st => paths_ok (xnodes st) /\ tethered st) Ha)
    as [[_ [T1 T2]] _].
  { intros i st _. apply visit_tethered. }
  { split; [by eapply start_paths_ok|].
    pose proof (annotate_spec _ _ _ _ Ha) as (_&_&_&_&Hs&Hseed).
    split.
    - intros e He. rewrite Hs in He. by apply elem_of_nil in He.
    - intros q (x&Hx&Hp). destruct (Hseed q x Hx) as (_&?&_). congruence. }
  split; [|done]. intros e He. destruct (T1 e He) as (r&R&Hreach).
  pose proof (search_statics _ _ _ _ Ha) as [S _].
  pose proof (search_wf _ _ _ _ Ha) as ((_&_&Hb)&_).
  apply (reqd_in_statics _ _ _ S) in R.
  apply (reqd_in_start nodes edges required g) in R as (a&Hi&R); [|done].
  destruct (xreach_ureach _ _ _ _ _ _ Hb Hreach Hi) as (b&Hfb&Hab).
  rewrite Forall_forall in Hb. destruct (built_ends _ _ _ (Hb e He)) as [F _].
  exists a. split_and!; [by eapply list_elem_of_lookup_2|done|].
  congruence.
Qed.

Lemma solution_edges_tethered_witness :
  exists g, annotate meet_nodes meet_edges meet_required = Returned g /\
    forall q, permanent_at (final (search g)) q ->
      endpoint (soln (final (search g))) q.
Proof.
  destruct (annotate meet_nodes meet_edges meet_required) as [g|] eqn:Ha;
    [|by vm_compute in Ha].
  exists g. split; [done|].
  apply (solution_edges_tethered meet_nodes meet_edges meet_required g Ha).
Defined.

(** ** Before the first merge *)


Lemma flags_permanent st d r t w :
  flags_at st d = Some (r, true, t, w) -> permanent_at st d.
Proof.
  unfold flags_at, flags. intros H.
  destruct (xnodes st !! d) as [x|] eqn:Hx; [|done]. exists x.
  split; [done|]. simpl in H. congruence.
Qed.



(** ** The counter of solved required nodes *)

Lemma steps_solved st0 tr st :
  steps st0 tr st -> Forall (fun s => act s <> Crashed) tr ->
  solved_reqds st = solved_reqds st0 + sum_list_with solved_by tr.
Proof.
  induction 1 as [|tr st i _ IH Hi]; intros Hc; simpl; [lia|].
  apply Forall_app in Hc as [Hc1 Hc2]. apply Forall_cons in Hc2 as [Hc2 _].
  simpl in Hc2. rewrite sum_list_with_app. simpl.
  pose proof (visit_solved i st) as V. specialize (IH Hc1).
  set (k := sum_list_with solved_by tr) in *. unfold solved_by. simpl.
  destruct ((visit i st).2) as [| |p pth [| | |]|]; try done; lia.
Qed.

(** A round of the [for] loop that runs to its end leaves the counter as it
    was; a round that breaks adds at most two. *)
Lemma for_loop_solved todo i f st tr :
  i + todo = length (xnodes st) ->
  sw_crashed (for_loop todo i f st tr) = false ->
  solved_reqds (sw_state (for_loop todo i f st tr)) <= solved_reqds st + 2 /\
  ((sw_i (for_loop todo i f st tr)
     <? length (xnodes (sw_state (for_loop todo i f st tr)))) = false ->
   solved_reqds (sw_state (for_loop todo i f st tr)) = solved_reqds st).
Proof.
  revert i f st tr. induction todo as [|todo IH]; intros i f st tr L; simpl.
  { intros _. split; [lia|done]. }
  pose proof (visit_solved i st) as V.
  pose proof (visit_length i st) as Hlen.
  assert (S i + todo = length (xnodes (visit i st).1)) as L' by lia.
  destruct ((visit i st).2) as [| |p pth [| | |]|]; simpl; try done.
  - intros Hc. destruct (IH (S i) f _ (tr ++ [mk_step i st Skipped (visit i st).1]) L' Hc)
      as [I1 I2]. rewrite V in I1, I2. done.
  - intros Hc. destruct (IH (S i) true _ (tr ++ [mk_step i st Requeued (visit i st).1]) L' Hc)
      as [I1 I2]. rewrite V in I1, I2. done.
  - intros Hc. destruct (IH (S i) true _
       (tr ++ [mk_step i st (Arrived p pth NoMerge) (visit i st).1]) L' Hc)
      as [I1 I2]. rewrite V in I1, I2. done.
  - intros _. split; [lia|]. intros H. apply Nat.ltb_ge in H. lia.
  - intros _. split; [lia|]. intros H. apply Nat.ltb_ge in H. lia.
  - intros _. split; [lia|]. intros H. apply Nat.ltb_ge in H. lia.
Qed.

Lemma inner_solved st tr :
  sw_crashed (inner st tr) = false ->
  solved_reqds (sw_state (inner st tr)) <= solved_reqds st + 2.
Proof.
  apply (inner_rect' (fun st tr r => sw_crashed r = false ->
           solved_reqds (sw_state r) <= solved_reqds st + 2)).
  - intros st' tr' _ Hc. by apply for_loop_solved.
  - intros st' tr' r Ha IH Hc. specialize (IH Hc).
    unfold inner_again in Ha. apply andb_prop in Ha as [Hc' Ha].
    apply negb_true_iff in Hc', Ha. apply orb_false_iff in Ha as [_ Ha].
    destruct (for_loop_solved (length (xnodes st')) 0 false st' tr')
      as [_ E]; [done..|].
    unfold sweep in *. rewrite E in IH by done. done.
Qed.

Lemma outer_solved reqds st tr :
  crashed (outer reqds st tr) = false ->
  solved_reqds st <= reqds + 1 ->
  solved_reqds (final (outer reqds st tr)) <= reqds + 1.
Proof.
  apply (outer_rect' reqds (fun st tr r => crashed r = false ->
           solved_reqds st <= reqds + 1 ->
           solved_reqds (final r) <= reqds + 1)).
  - done.
  - intros st' tr' Hs _ Hc _. simpl in *. apply Nat.ltb_lt in Hs.
    pose proof (inner_solved st' tr' Hc). lia.
  - intros st' tr' r Hs Ha IH Hc _. apply IH; [done|].
    apply Nat.ltb_lt in Hs. unfold outer_again in Ha.
    apply andb_prop in Ha as [Hc' _]. apply negb_true_iff in Hc'.
    pose proof (inner_solved st' tr' Hc'). lia.
Qed.

(** X6. [solved_reqds] ends as the number of terminal merges plus twice the
    number of cross merges of the search, and it never passes the number of
    required nodes by more than one: a merge happens only while the counter
    is below that number, and adds at most two. *)
Theorem solved_counter_accounting nodes edges required g :
  annotate nodes edges required = Returned g ->
  solved_reqds (final (search g)) =
    sum_list_with solved_by (trace (search g)) /\
  solved_reqds (final (search g)) <= g_reqds g + 1.
Proof.
  intros Ha. pose proof (annotate_spec _ _ _ _ Ha) as (W&_).
  pose proof (annotate_shape _ _ _ _ Ha) as (_&_&_&Hz).
  pose proof (search_wf _ _ _ _ Ha) as (_&_&Hc).
  split.
  - rewrite (steps_solved _ _ _ (search_steps g)), Hz; [done|].
    by apply (steps_no_crash _ _ (built_to nodes edges) _ _ _ W
                (search_steps g)).
  - apply outer_solved; [done|]. rewrite Hz. lia.
Qed.

Lemma solved_counter_accounting_witness :
  exists g, annotate meet_nodes meet_edges meet_required = Returned g /\
    solved_reqds (final (search g)) <= g_reqds g + 1.
Proof.
  destruct (annotate meet_nodes meet_edges meet_required) as [g|] eqn:Ha;
    [|by vm_compute in Ha].
  exists g. split; [done|].
  apply (solved_counter_accounting meet_nodes meet_edges meet_required g Ha).
Defined.

(** ** The temporary web *)

Lemma visit_temps i st :
  match (visit i st).2 with
  | Arrived p _ _ =>
      p < length (xnodes st) /\
      temps (xnodes (visit i st).1) = <[p := true]> (temps (xnodes st))
  | Crashed => True
  | _ => temps (xnodes (visit i st).1) = temps (xnodes st)
  end.
Proof.
  pose proof (visit_cases i st) as V.
  destruct ((visit i st).2) as [| |p pth m|] eqn:E; [| | |done].
  - by rewrite V.
  - destruct V as (n&pp&rest&pp'&_&_&->). simpl. apply temps_set_fifo.
  - destruct V as (n&pp&rest&xp&Hsh&Hr&->&->&Hp&Hnf&ps&Hsub&Hfr&Hm).
    split; [by eapply lookup_lt_Some|].
    set (st2 := arrive _ _ _ _ _) in *.
    assert (temps (xnodes st2) = <[point pp := true]> (temps (xnodes st)))
      as T2.
    { subst st2. unfold arrive. simpl.
      by rewrite temps_set_arrival, temps_set_fifo. }
    assert (temps (xnodes (push_all i (child (path pp) <$> ps) st2)) =
            temps (xnodes st2)) as T1.
    { unfold push_all, temps. simpl. by apply fmap_alter_same. }
    simpl in Hm. destruct m as [|d|d|]; [| | |done].
    + destruct Hm as [-> _]. by rewrite T1.
    + destruct Hm as (out&_&_&_&->).
      unfold terminal_merge, mark_permanent. cbn [xnodes].
      by rewrite temps_set_permanent, temps_mark_sources, T1.
    + destruct Hm as (out&w&_&_&_&->).
      unfold cross_merge, mark_permanent. cbn [xnodes].
      by rewrite temps_set_permanent, temps_mark_sources, T1.
Qed.

Lemma steps_reached st0 tr st :
  steps st0 tr st -> Forall (fun s => act s <> Crashed) tr ->
  forall q, temps (xnodes st) !! q = Some true <->
    temps (xnodes st0) !! q = Some true \/ Exists (arrived_at q) tr.
Proof.
  induction 1 as [|tr st i _ IH Hi]; intros Hc q.
  { rewrite Exists_nil. tauto. }
  apply Forall_app in Hc as [Hc1 Hc2]. apply Forall_cons in Hc2 as [Hc2 _].
  simpl in Hc2. specialize (IH Hc1).
  rewrite Exists_app, Exists_cons, Exists_nil. unfold arrived_at at 2.
  simpl. pose proof (visit_temps i st) as V.
  destruct ((visit i st).2) as [| |p pth m|]; [| | |done].
  - rewrite V, IH. split; [tauto|]. intros [?|[?|[(?&?&?)|[]]]]; tauto || done.
  - rewrite V, IH. split; [tauto|]. intros [?|[?|[(?&?&?)|[]]]]; tauto || done.
  - destruct V as [Hlt ->]. unfold temps at 1.
    destruct (decide (p = q)) as [->|Hne].
    + rewrite list_lookup_insert_eq by (by rewrite length_fmap).
      split; [|done]. intros _. right. right. left. by exists pth, m.
    + rewrite list_lookup_insert_ne by done. fold (temps (xnodes st)).
      rewrite IH. split; [tauto|].
      intros [?|[?|[(?&?&?)|[]]]]; [tauto..|]. congruence.
Qed.

Lemma steps_witnessed st0 tr st :
  steps st0 tr st -> Forall (fun s => act s <> Crashed) tr ->
  (forall q x, xnodes st0 !! q = Some x ->
     (in_temporary_web x = true <-> is_Some (witness x))) ->
  forall q x, xnodes st !! q = Some x ->
    (in_temporary_web x = true <-> is_Some (witness x)).
Proof.
  induction 1 as [|tr st i _ IH Hi]; intros Hc H0 q x Hx; [by apply (H0 q)|].
  apply Forall_app in Hc as [Hc1 Hc2]. apply Forall_cons in Hc2 as [Hc2 _].
  simpl in Hc2. specialize (IH Hc1 H0 q).
  assert (temps (xnodes (visit i st).1) !! q = Some (in_temporary_web x))
    as Ht by (unfold temps; by rewrite list_lookup_fmap, Hx).
  assert (witnesses (xnodes (visit i st).1) !! q = Some (witness x)) as Hw
    by (unfold witnesses; by rewrite list_lookup_fmap, Hx).
  assert (exists y, xnodes st !! q = Some y) as [y Hy].
  { apply lookup_lt_is_Some. rewrite <- (visit_length i st).
    by eapply lookup_lt_Some. }
  assert (temps (xnodes st) !! q = Some (in_temporary_web y)) as Hty
    by (unfold temps; by rewrite list_lookup_fmap, Hy).
  assert (witnesses (xnodes st) !! q = Some (witness y)) as Hwy
    by (unfold witnesses; by rewrite list_lookup_fmap, Hy).
  specialize (IH y Hy).
  pose proof (visit_temps i st) as VT. pose proof (visit_witnesses i st) as VW.
  destruct ((visit i st).2) as [| |p pth m|]; [| | |done].
  - rewrite VT, Hty in Ht. rewrite VW, Hwy in Hw.
    injection Ht as <-. by injection Hw as <-.
  - rewrite VT, Hty in Ht. rewrite VW, Hwy in Hw.
    injection Ht as <-. by injection Hw as <-.
  - destruct VT as [Hlt VT]. destruct VW as [_ VW].
    rewrite VT in Ht. rewrite VW in Hw.
    destruct (decide (p = q)) as [->|Hne].
    + rewrite list_lookup_insert_eq in Ht
        by (unfold temps; by rewrite length_fmap).
      rewrite list_lookup_insert_eq in Hw
        by (unfold witnesses; by rewrite length_fmap).
      injection Ht as <-. injection Hw as <-. by split; [eexists|].
    + rewrite list_lookup_insert_ne, Hty in Ht by done.
      rewrite list_lookup_insert_ne, Hwy in Hw by done.
      injection Ht as <-. by injection Hw as <-.
Qed.

(** X7. A node is in the temporary web exactly when some path of some
    search has arrived at it, and exactly then it has a witness. *)
Theorem reached_iff_arrived nodes edges required g q x :
  annotate nodes edges required = Returned g ->
  xnodes (final (search g)) !! q = Some x ->
  (in_temporary_web x = true <->
   exists s pth m, s ∈ trace (search g) /\ act s = Arrived q pth m) /\
  (in_temporary_web x = true <-> is_Some (witness x)).
Proof.
  intros Ha Hx. pose proof (annotate_spec _ _ _ _ Ha) as (W&_&_&_&_&Hseed).
  pose proof (steps_no_crash _ _ (built_to nodes edges) _ _ _ W
                (search_steps g)) as Hnc.
  pose proof (steps_reached _ _ _ (search_steps g) Hnc q) as R.
  assert (temps (xnodes (final (search g))) !! q = Some (in_temporary_web x))
    as Hq by (unfold temps; by rewrite list_lookup_fmap, Hx).
  assert (temps (xnodes (g_start g)) !! q <> Some true) as H0.
  { unfold temps. rewrite list_lookup_fmap.
    destruct (xnodes (g_start g) !! q) as [y|] eqn:Hy; [|done].
    destruct (Hseed q y Hy) as (T&_). simpl. congruence. }
  split.
  - rewrite Hq in R. split.
    + intros T. rewrite T in R. destruct R as [R _].
      destruct (R eq_refl) as [?|E]; [done|].
      apply Exists_exists in E as (s&Hs&pth&m&Hact). by exists s, pth, m.
    + intros (s&pth&m&Hs&Hact). destruct R as [_ R].
      assert (Some (in_temporary_web x) = Some true) as E; [|congruence].
      apply R. right. apply Exists_exists. exists s. split; [done|].
      by exists pth, m.
  - apply (steps_witnessed _ _ _ (search_steps g) Hnc) with (q := q); [|done].
    intros q' y Hy. destruct (Hseed q' y Hy) as (T&_&Hw&_).
    rewrite T, Hw. split; [done|]. by intros [? ?].
Qed.

Lemma reached_iff_arrived_witness :
  exists g x, annotate late_nodes late_edges late_required = Returned g /\
    xnodes (final (search g)) !! 2 = Some x /\
    (in_temporary_web x = true <-> is_Some (witness x)).
Proof.
  destruct (annotate late_nodes late_edges late_required) as [g|] eqn:Ha;
    [|by vm_compute in Ha].
  destruct (xnodes (final (search g)) !! 2) as [x|] eqn:Hx.
  2:{ apply lookup_ge_None in Hx.
      pose proof (search_wf _ _ _ _ Ha) as ((L&_)&_). rewrite L in Hx.
      simpl in Hx. lia. }
  exists g, x. split; [done|]. split; [done|].
  apply (reached_iff_arrived late_nodes late_edges late_required g 2 x Ha Hx).
Defined.

(** ** The solution normalizer, again *)

Lemma uniqueify_fixed es retval :
  NoDup (xends <$> (retval ++ es)) ->
  fold_left uniqueify_step es retval = retval ++ es.
Proof.
  revert retval. induction es as [|e es IH]; intros retval Hnd; simpl.
  { by rewrite app_nil_r. }
  unfold uniqueify_step at 2.
  destruct (existsb (fun r => same_ends r e) retval) eqn:Hex.
  - exfalso. apply existsb_same_ends in Hex.
    rewrite fmap_app in Hnd. apply NoDup_app in Hnd as (_&Hd&_).
    apply (Hd _ Hex). simpl. by left.
  - rewrite IH; [by rewrite <- app_assoc|].
    by rewrite <- app_assoc.
Qed.

(** X8. [uniqueify] leaves a list whose edges have pairwise different
    [(from, to)] pairs as it is; applied twice it does what it does applied
    once; and it never makes a list longer. *)
Theorem uniqueify_idempotent es :
  (NoDup (xends <$> es) -> uniqueify es = es) /\
  uniqueify (uniqueify es) = uniqueify es /\
  length (uniqueify es) <= length es.
Proof.
  assert (forall es', NoDup (xends <$> es') -> uniqueify es' = es') as Fix.
  { intros es' Hnd. unfold uniqueify. by rewrite uniqueify_fixed. }
  destruct (uniqueify_from es [] (NoDup_nil_2 (A:=nat * nat)))
    as (kept&E&Hsub&Hnd&_&_).
  assert (uniqueify es = kept) as Ek by (unfold uniqueify; by rewrite E).
  simpl in Hnd. rewrite Ek.
  split_and!; [rewrite <- Ek; apply Fix|by apply Fix|by apply sublist_length].
Qed.

Lemma uniqueify_idempotent_witness :
  uniqueify [XEdge.mk (Edge.mk 7 9 5 0) 0 1 5 false false;
             XEdge.mk (Edge.mk 9 7 5 0) 1 0 5 false false] =
  [XEdge.mk (Edge.mk 7 9 5 0) 0 1 5 false false;
   XEdge.mk (Edge.mk 9 7 5 0) 1 0 5 false false].
Proof.
  apply uniqueify_idempotent. simpl.
  apply NoDup_cons. split.
  - intros H. apply list_elem_of_singleton in H. discriminate.
  - apply NoDup_singleton.
Defined.

(** ** What a merge adds to the solution *)

Lemma flags_at_arrive_ne i p pth rest st d :
  d <> p ->
  (snd <$> flags_at (arrive i p pth rest st) d) = (snd <$> flags_at st d).
Proof.
  intros Hne. unfold flags_at, arrive. simpl.
  rewrite list_lookup_alter_ne by done. rewrite list_lookup_alter.
  case_decide; [|done]. subst. by destruct (xnodes st !! d).
Qed.

(** X9. The solution changes only at a merge, and only by appending.  A
    terminal merge appends the path that arrived and the edge, out of the
    arrival point, that ended the scan; a cross merge appends the path that
    arrived, the path of the witness that the destination had before the
    step and that belongs to another search, and the edge that ended the
    scan. *)
Theorem merges_append nodes edges required s :
  s ∈ search_trace nodes edges required ->
  match act s with
  | Arrived p pth (TerminalMerge d) =>
      exists out, XEdge.from out = p /\ XEdge.to out = d /\
        XEdge.edge out ∈ edges /\
        soln (post s) = soln (pre s) ++ pth ++ [out]
  | Arrived p pth (CrossMerge d) =>
      exists out w, XEdge.from out = p /\ XEdge.to out = d /\
        XEdge.edge out ∈ edges /\
        witness_at (pre s) d = Some w /\ wnode w <> who s /\
        soln (post s) = soln (pre s) ++ pth ++ wpath w ++ [out]
  | _ => soln (post s) = soln (pre s)
  end.
Proof.
  intros Hs. unfold search_trace in Hs.
  destruct (annotate nodes edges required) as [g|] eqn:Ha;
    [|by apply elem_of_nil in Hs].
  pose proof (search_paths_ok _ _ _ _ Ha) as [_ HP].
  pose proof (search_wf _ _ _ _ Ha) as (_&HW&_).
  pose proof (steps_faithful _ _ _ (search_steps g)) as HF.
  rewrite Forall_forall in HP, HW, HF.
  destruct (HP s Hs) as [P _]. destruct (HW s Hs) as [W _].
  destruct (HF s Hs) as (Hlt&Hv&Hpost).
  destruct (visit_wf _ _ (built_to nodes edges) (who s) (pre s) W) as [_ Hnc].
  pose proof (visit_cases (who s) (pre s)) as V.
  rewrite <- Hv, <- Hpost in V.
  destruct (act s) as [| |p pth m|] eqn:E.
  - by rewrite V.
  - by destruct V as (n&pp&rest&pp'&_&_&->).
  - destruct V as (n&pp&rest&xp&Hsh&Hr&->&->&Hp&Hnf&ps&Hsub&Hfr&Hm).
    destruct (visit_scan_states _ _ _ _ _ _ _ Hsh Hp Hsub P)
      as (P2&P1&S2&S1&Ri&C&Hout).
    assert (forall out, out ∈ outgoing xp -> XEdge.edge out ∈ edges) as Hed.
    { intros out Ho. destruct W as (_&Wn&_).
      pose proof (Forall_lookup_1 _ _ _ _ Wn Hp) as (Hg&_).
      rewrite Forall_forall in Hg. by destruct (Hg out Ho). }
    simpl in Hm. destruct m as [|d|d|]; [| | |done].
    + by destruct Hm as [-> _].
    + destruct Hm as (out&Ho&->&_&->). exists out. split_and!; auto.
    + destruct Hm as (out&w&Ho&->&(r&Hfl&_&Hne)&->). exists out, w.
      split_and!; auto.
      assert (XEdge.to out <> point pp) as Hd.
      { intros Hd. rewrite Hd in Hfl. unfold flags_at, arrive in Hfl.
        simpl in Hfl. rewrite list_lookup_alter_eq in Hfl.
        destruct (alter (set_fifo rest) (who s) (xnodes (pre s)) !! point pp);
          [|done].
        simpl in Hfl. injection Hfl as _ _ <-. by apply Hne. }
      pose proof (flags_at_arrive_ne (who s) (point pp) (path pp) rest (pre s)
                    _ Hd) as Hf.
      rewrite Hfl in Hf. unfold witness_at, flags_at in *.
      destruct (xnodes (pre s) !! XEdge.to out) as [t|]; [|done].
      simpl in *. by injection Hf as <-.
  - exfalso. apply Hnc; [|done]. destruct W as [<- _]. done.
Qed.

Lemma merges_append_witness :
  match search_trace line_nodes line_edges line_required !! 0 with
  | Some s =>
      exists out, XEdge.from out = 0 /\ XEdge.to out = 1 /\
        XEdge.edge out ∈ line_edges /\
        soln (post s) = soln (pre s) ++ [] ++ [out]
  | None => False
  end.
Proof.
  run_trace 20 line_nodes line_edges line_required Htr.
  destruct (search_trace line_nodes line_edges line_required !! 0) as [s|] eqn:L;
    [|by rewrite Htr in L].
  pose proof (merges_append line_nodes line_edges line_required s
                (list_elem_of_lookup_2 _ _ _ L)) as M.
  rewrite Htr in L. vm_compute in L. injection L as <-. exact M.
Defined.

(** ** From the frontier of one search to the first merge *)








Lemma flags_reqd_in st xs d r p t w :
  flags_at st d = Some (r, p, t, w) -> statics (xnodes st) = statics xs ->
  reqd_in xs d -> r = true.
Proof.
  intros H St R. apply (reqd_in_statics _ _ _ (eq_sym St)) in R.
  destruct R as (x&Hx&R). unfold flags_at, flags in H. rewrite Hx in H.
  simpl in H. congruence.
Qed.

















(** ** Required nodes that the graph keeps apart *)





(** ** The required nodes as a set *)

(** X13. [is_reqd] only asks whether a node occurs in [required]: the order
    of [required], entries that occur twice and entries that are not in
    [nodes] make no difference to the search or to what [steiner] returns. *)
Theorem required_is_a_set connect nodes edges required required' :
  (forall n, n ∈ nodes -> (n ∈ required' <-> n ∈ required)) ->
  search_trace nodes edges required' = search_trace nodes edges required /\
  steiner connect nodes edges required' =
  steiner connect nodes edges required.
Proof.
  intros H.
  assert (annotate nodes edges required' = annotate nodes edges required) as E.
  { apply annotate_agree. intros n Hn. specialize (H n Hn).
    assert (forall rq, is_reqd rq n = true <-> n ∈ rq) as Hin.
    { intros rq. unfold is_reqd. rewrite existsb_exists. split.
      - intros (r&Hr&Er). apply Nat.eqb_eq in Er. subst.
        by apply list_elem_of_In.
      - intros Hr. exists n. split; [by apply list_elem_of_In|].
        by apply Nat.eqb_eq. }
    destruct (is_reqd required' n) eqn:E1, (is_reqd required n) eqn:E2;
      try done.
    - apply Hin, H, Hin in E1. congruence.
    - apply Hin, H, Hin in E2. congruence. }
  unfold search_trace, steiner. by rewrite E.
Qed.

Lemma required_is_a_set_witness :
  steiner connect_id late_nodes late_edges [1; 0; 1; 9] =
  steiner connect_id late_nodes late_edges late_required.
Proof.
  apply (required_is_a_set connect_id late_nodes late_edges late_required
           [1; 0; 1; 9]).
  intros n Hn. unfold late_nodes, late_required in *.
  rewrite !list_elem_of_In in *. simpl in *. lia.
Defined.

(** ** Queues and witnesses at every step *)

(** X14. Before and after every body of the loop: an edge in the
    [outgoing] list of a node starts at that node; only required nodes have
    paths in their queue, and each queued path leads from the node that owns
    the queue to the point of the path; a witness names a required node and
    holds a path from that node to the node that carries the witness. *)
Theorem queues_and_witnesses_shaped nodes edges required s :
  s ∈ search_trace nodes edges required ->
  paths_ok (xnodes (pre s)) /\ paths_ok (xnodes (post s)).
Proof.
  intros Hs. unfold search_trace in Hs.
  destruct (annotate nodes edges required) as [g|] eqn:Ha;
    [|by apply elem_of_nil in Hs].
  pose proof (search_paths_ok _ _ _ _ Ha) as [_ HP].
  rewrite Forall_forall in HP. by apply HP.
Qed.

Lemma queues_and_witnesses_shaped_witness :
  match search_trace meet_nodes meet_edges meet_required !! 7 with
  | Some s => paths_ok (xnodes (pre s)) /\ paths_ok (xnodes (post s))
  | None => False
  end.
Proof.
  destruct (search_trace meet_nodes meet_edges meet_required !! 7)
    as [s|] eqn:L.
  - apply (queues_and_witnesses_shaped meet_nodes meet_edges meet_required).
    by eapply list_elem_of_lookup_2.
  - run_trace 30 meet_nodes meet_edges meet_required Htr.
    rewrite Htr in L. by vm_compute in L.
Defined.

(** ** What a merge marks *)

Lemma permanent_alter_iff g i st q :
  (forall x, in_permanent_web (g x) = in_permanent_web x) ->
  permanent_at (with_xnodes (alter g i) st) q <-> permanent_at st q.
Proof.
  intros Hg. split; [by apply permanent_alter_inv|].
  apply permanent_with_alter. intros x. by rewrite Hg.
Qed.

Lemma mark_sources_marks pth (xs : list xnode) q :
  q ∈ XEdge.from <$> pth -> q < length xs ->
  exists y, mark_sources pth xs !! q = Some y /\ in_permanent_web y = true.
Proof.
  revert xs. induction pth as [|e pth IH]; intros xs Hq Hlt; simpl in *.
  { by apply elem_of_nil in Hq. }
  destruct (decide (q = XEdge.from e)) as [->|Hne].
  - destruct (lookup_lt_is_Some_2 xs (XEdge.from e) Hlt) as [x Hx].
    apply (permanent_mark_sources pth _ _ (set_permanent x)); [|done].
    unfold mark_permanent. by rewrite list_lookup_alter_eq, Hx.
  - apply IH.
    + apply elem_of_cons in Hq as [?|?]; done.
    + unfold mark_permanent. by rewrite length_alter.
Qed.

(** The permanent web after a merge that marks the sources of [marked] and
    the node [d]. *)
Lemma merged_permanent_iff marked d added k st q :
  Forall (fun e => XEdge.from e < length (xnodes st)) marked ->
  d < length (xnodes st) ->
  permanent_at
    (mk_state (mark_permanent d (mark_sources marked (xnodes st))) added k) q
  <-> permanent_at st q \/ q ∈ XEdge.from <$> marked \/ q = d.
Proof.
  intros Hm Hd. split; [apply merged_permanent|].
  intros [H|[H| ->]].
  - by apply permanent_merge.
  - destruct (mark_sources_marks marked (xnodes st) q H) as (y&Hy&Hp).
    { apply list_elem_of_fmap in H as (e&->&He).
      rewrite Forall_forall in Hm. by apply Hm. }
    by apply (permanent_alter set_permanent d _ q y).
  - destruct (lookup_lt_is_Some_2 (mark_sources marked (xnodes st)) d)
      as [y Hy]; [by rewrite length_mark_sources|].
    exists (set_permanent y). split; [|done]. simpl. unfold mark_permanent.
    by rewrite list_lookup_alter_eq, Hy.
Qed.

Lemma terminal_merge_permanent pth out st q :
  Forall (fun e => XEdge.from e < length (xnodes st)) pth ->
  XEdge.to out < length (xnodes st) ->
  permanent_at (terminal_merge pth out st) q <->
  permanent_at st q \/ q ∈ XEdge.from <$> pth \/ q = XEdge.to out.
Proof. intros Hm Hd. unfold terminal_merge. by apply merged_permanent_iff. Qed.

Lemma cross_merge_permanent pth w out st q :
  Forall (fun e => XEdge.from e < length (xnodes st))
    (pth ++ wpath w ++ [out]) ->
  XEdge.to out < length (xnodes st) ->
  permanent_at (cross_merge pth w out st) q <->
  permanent_at st q \/ q ∈ XEdge.from <$> (pth ++ wpath w ++ [out]) \/
  q = XEdge.to out.
Proof. intros Hm Hd. unfold cross_merge. by apply merged_permanent_iff. Qed.

(** The witness a cross merge reads is the one the destination had before
    the step. *)
Lemma crosses_witness i st pp rest out w :
  crosses i (arrive i (point pp) (path pp) rest st) out w ->
  XEdge.to out <> point pp /\ witness_at st (XEdge.to out) = Some w.
Proof.
  intros (r&Hfl&_&Hne).
  assert (XEdge.to out <> point pp) as Hd.
  { intros Hd. rewrite Hd in Hfl. unfold flags_at, arrive in Hfl.
    simpl in Hfl. rewrite list_lookup_alter_eq in Hfl.
    destruct (alter (set_fifo rest) i (xnodes st) !! point pp); [|done].
    simpl in Hfl. injection Hfl as _ _ <-. by apply Hne. }
  split; [done|].
  pose proof (flags_at_arrive_ne i (point pp) (path pp) rest st _ Hd) as Hf.
  rewrite Hfl in Hf. unfold witness_at, flags_at in *.
  destruct (xnodes st !! XEdge.to out) as [t|]; [|done].
  simpl in *. by injection Hf as <-.
Qed.

(** X15. The permanent web changes only at a merge.  A terminal merge adds
    exactly the nodes the edges of the arrived path start from and the
    destination: line 191 does not go over the edge that ended the scan, so
    the arrival point is not marked for its own sake, and when the arrived
    path is empty the searching node stays outside the permanent web.  A
    cross merge adds exactly the nodes the edges of the arrived path and of
    the witness's path start from, the arrival point and the destination. *)
Theorem merges_mark nodes edges required s q :
  s ∈ search_trace nodes edges required ->
  match act s with
  | Arrived p pth (TerminalMerge d) =>
      (permanent_at (post s) q <->
       permanent_at (pre s) q \/ q ∈ XEdge.from <$> pth \/ q = d) /\
      (pth = [] -> ~ permanent_at (post s) (who s))
  | Arrived p pth (CrossMerge d) =>
      exists w, witness_at (pre s) d = Some w /\
        (permanent_at (post s) q <->
         permanent_at (pre s) q \/ q ∈ XEdge.from <$> pth \/
         q ∈ XEdge.from <$> wpath w \/ q = p \/ q = d)
  | _ => permanent_at (post s) q <-> permanent_at (pre s) q
  end.
Proof.
  intros Hs. unfold search_trace in Hs.
  destruct (annotate nodes edges required) as [g|] eqn:Ha;
    [|by apply elem_of_nil in Hs].
  pose proof (search_paths_ok _ _ _ _ Ha) as [_ HP].
  pose proof (search_wf _ _ _ _ Ha) as (_&HW&_).
  pose proof (steps_faithful _ _ _ (search_steps g)) as HF.
  rewrite Forall_forall in HP, HW, HF.
  destruct (HP s Hs) as [P _]. destruct (HW s Hs) as [W _].
  destruct (HF s Hs) as (Hlt&Hv&Hpost).
  destruct (visit_wf _ _ (built_to nodes edges) (who s) (pre s) W) as [_ Hnc].
  pose proof (visit_cases (who s) (pre s)) as V.
  rewrite <- Hv, <- Hpost in V.
  destruct (act s) as [| |p pth m|] eqn:E.
  - by rewrite V.
  - destruct V as (n&pp&rest&pp'&_&_&->). by apply permanent_alter_iff.
  - destruct V as (n&pp&rest&xp&Hsh&Hr&->&->&Hp&Hnf&ps&Hsub&Hfr&Hm).
    destruct (visit_scan_states _ _ _ _ _ _ _ Hsh Hp Hsub P)
      as (P2&P1&S2&S1&Ri&C&Hout).
    set (st2 := arrive _ _ _ _ _) in *.
    set (st1 := push_all _ _ _) in *.
    assert (forall q', permanent_at st2 q' <-> permanent_at (pre s) q') as H2.
    { intros q'. subst st2. unfold arrive.
      rewrite permanent_alter_iff by done. by apply permanent_alter_iff. }
    assert (forall q', permanent_at st1 q' <-> permanent_at (pre s) q') as H1.
    { intros q'. rewrite <- H2. subst st1. by apply permanent_alter_iff. }
    assert (length (xnodes st1) = length nodes) as L1.
    { rewrite <- (statics_length _ _ S1). by destruct W. }
    pose proof W as (_&Wn&_).
    assert (Forall (built nodes edges) (path pp)) as Gp.
    { destruct Hsh as (Hn&_&_&Hq).
      pose proof (Forall_lookup_1 _ _ _ _ Wn Hn) as (_&Hfq&_).
      rewrite Hq in Hfq. by apply Forall_cons in Hfq as [[_ ?] _]. }
    assert (forall out, out ∈ outgoing xp -> built nodes edges out) as Go.
    { intros out Ho. pose proof (Forall_lookup_1 _ _ _ _ Wn Hp) as (Hg&_).
      rewrite Forall_forall in Hg. by apply Hg. }
    assert (forall es, Forall (built nodes edges) es ->
              Forall (fun e => XEdge.from e < length (xnodes st1)) es) as Gf.
    { intros es Hes. eapply Forall_impl; [exact Hes|].
      intros e He. rewrite L1. by eapply built_from. }
    simpl in Hm. destruct m as [|d|d|]; [| | |done].
    + destruct Hm as [-> _]. apply H1.
    + destruct Hm as (out&Ho&->&Hsol&->).
      assert (forall q', permanent_at (terminal_merge (path pp) out st1) q'
                <-> permanent_at (pre s) q' \/
                    q' ∈ XEdge.from <$> path pp \/ q' = XEdge.to out) as Hiff.
      { intros q'. rewrite terminal_merge_permanent, H1; [done|by apply Gf|].
        rewrite L1. eapply built_to. by apply Go. }
      split; [apply Hiff|]. intros Hnil Hq. apply Hiff in Hq.
      rewrite Hnil in Hq. destruct Hsh as (Hn&_&Hpn&_).
      destruct Hq as [Hq|[Hq|Hq]].
      * destruct Hq as (x&Hx&Hpx). congruence.
      * by apply elem_of_nil in Hq.
      * destruct Hsol as (r&p&t&w&Hfl&[[_ Hne]| ->]); [done|].
        apply flags_permanent, H2 in Hfl. rewrite <- Hq in Hfl.
        destruct Hfl as (x&Hx&Hpx). congruence.
    + destruct Hm as (out&w&Ho&->&Hcr&->).
      destruct (crosses_witness _ _ _ _ _ _ Hcr) as [_ Hw].
      exists w. split; [done|].
      assert (Forall (built nodes edges) (wpath w)) as Gw.
      { unfold witness_at in Hw.
        destruct (xnodes (pre s) !! XEdge.to out) as [t|] eqn:Ht; [|done].
        pose proof (Forall_lookup_1 _ _ _ _ Wn Ht) as (_&_&Hgw&_).
        by apply Hgw. }
      rewrite cross_merge_permanent, H1.
      * rewrite !fmap_app, !elem_of_app. simpl.
        rewrite list_elem_of_singleton, (Hout out Ho). tauto.
      * apply Gf. rewrite !Forall_app. split_and!; [done..|].
        constructor; [by apply Go|constructor].
      * rewrite L1. eapply built_to. by apply Go.
  - exfalso. apply Hnc; [|done]. destruct W as [<- _]. done.
Qed.

Lemma merges_mark_witness :
  match search_trace line_nodes line_edges line_required !! 0 with
  | Some s => ~ permanent_at (post s) 0
  | None => False
  end.
Proof.
  run_trace 20 line_nodes line_edges line_required Htr.
  destruct (search_trace line_nodes line_edges line_required !! 0) as [s|] eqn:L;
    [|by rewrite Htr in L].
  pose proof (merges_mark line_nodes line_edges line_required s 0
                (list_elem_of_lookup_2 _ _ _ L)) as M.
  rewrite Htr in L. vm_compute in L. injection L as <-.
  simpl in M. by apply M.
Defined.

(** ** Searches stop at required nodes *)

Lemma avoids_alter g i xs :
  (forall x, static (g x) = static x) ->
  (forall x pp, xs !! i = Some x -> pp ∈ fifo (g x) ->
     Forall (fun e => reqd_in xs (XEdge.to e) -> XEdge.to e = i) (path pp)) ->
  avoids xs -> avoids (alter g i xs).
Proof.
  intros Hs Hg A.
  assert (statics (alter g i xs) = statics xs) as St.
  { unfold statics. by rewrite fmap_alter_same. }
  intros j y pp Hy Hpp.
  assert (Forall (fun e => reqd_in xs (XEdge.to e) -> XEdge.to e = j)
            (path pp)) as H.
  { rewrite list_lookup_alter in Hy. case_decide.
    - subst. destruct (xs !! j) as [x|] eqn:Hx; [|done].
      injection Hy as <-. by apply (Hg x).
    - by apply (A j y). }
  eapply Forall_impl; [exact H|]. intros e He R. apply He.
  by apply (reqd_in_statics _ _ _ St).
Qed.

Lemma avoids_same g i xs :
  (forall x, static (g x) = static x) -> (forall x, fifo (g x) = fifo x) ->
  avoids xs -> avoids (alter g i xs).
Proof.
  intros Hs Hf A. apply avoids_alter; [done| |done].
  intros x pp Hx. rewrite Hf. by apply A.
Qed.

Lemma avoids_mark_sources pth xs : avoids xs -> avoids (mark_sources pth xs).
Proof.
  revert xs. induction pth as [|e pth IH]; intros xs H; [done|].
  simpl. apply IH. by apply avoids_same.
Qed.

Lemma avoids_merged marked d xs :
  avoids xs -> avoids (mark_permanent d (mark_sources marked xs)).
Proof.
  intros H. apply avoids_same; [done..|]. by apply avoids_mark_sources.
Qed.

Lemma visit_avoids i st :
  (visit i st).2 <> Crashed ->
  avoids (xnodes st) -> avoids (xnodes (visit i st).1).
Proof.
  intros Hc A. pose proof (visit_cases i st) as V.
  destruct ((visit i st).2) as [| |p pth m|] eqn:E; [| | |done].
  - by rewrite V.
  - destruct V as (n&pp&rest&pp'&(Hn&R&_&Hq)&Hr&->). simpl.
    apply avoids_alter; [done| |done].
    intros x pp0 Hx H0. rewrite Hn in Hx. injection Hx as <-. simpl in H0.
    unfold requeue in Hr. destruct (1 <? endweight pp)%Z; [|done].
    injection Hr as <-. apply elem_of_app in H0 as [H0|H0].
    + apply (A i n pp0 Hn). rewrite Hq. by right.
    + apply list_elem_of_singleton in H0 as ->. simpl.
      apply (A i n pp Hn). rewrite Hq. by left.
  - destruct V as (n&pp&rest&xp&(Hn&R&Hpn&Hq)&Hr&->&->&Hp&Hnf&ps&Hsub&Hfr&Hm).
    set (st2 := arrive _ _ _ _ _) in *.
    assert (statics (xnodes st2) = statics (xnodes st)) as St2.
    { subst st2. unfold arrive, statics. simpl.
      by rewrite !fmap_alter_same. }
    assert (avoids (xnodes st2)) as A2.
    { subst st2. unfold arrive. simpl. apply avoids_same; [done..|].
      apply avoids_alter; [done| |done].
      intros x pp0 Hx H0. rewrite Hn in Hx. injection Hx as <-.
      apply (A i n pp0 Hn). rewrite Hq. by right. }
    assert (Forall (fun e => reqd_in (xnodes st) (XEdge.to e) ->
                             XEdge.to e = i) (path pp)) as Hpp.
    { apply (A i n pp Hn). rewrite Hq. by left. }
    destruct (statics_lookup _ _ _ _ (eq_sym St2) Hn) as (n2&Hn2&E2).
    assert (avoids (xnodes (push_all i (child (path pp) <$> ps) st2))) as A1.
    { unfold push_all. simpl. apply avoids_alter; [done| |done].
      intros x pp0 Hx H0. simpl in H0.
      apply elem_of_app in H0 as [H0|H0]; [by apply (A2 i x)|].
      apply list_elem_of_fmap in H0 as (out&->&Hout). simpl.
      apply Forall_app. split.
      - eapply Forall_impl; [exact Hpp|]. intros e He Re. apply He.
        by apply (reqd_in_statics _ _ _ St2).
      - constructor; [|constructor]. intros Re.
        rewrite Forall_forall in Hfr.
        destruct (Hfr out Hout) as (r&w&Hfl&Hr'). apply Hr'.
        exact (flags_reqd_in st2 (xnodes st2) _ _ _ _ _ Hfl eq_refl Re). }
    simpl in Hm. destruct m as [|d|d|]; [| | |done].
    + by destruct Hm as [-> _].
    + destruct Hm as (out&_&_&_&->). by apply avoids_merged.
    + destruct Hm as (out&w&_&_&_&->). by apply avoids_merged.
Qed.

Lemma chain_end a pth b :
  chain a pth b -> b = a \/ exists e, e ∈ pth /\ XEdge.to e = b.
Proof.
  revert a. induction pth as [|e pth IH]; intros a; simpl; [by left|].
  intros [_ H]. right. destruct (IH _ H) as [->|(e'&He'&<-)].
  - exists e. split; [by left|done].
  - exists e'. split; [by right|done].
Qed.

(** X16. A search never goes past another required node: no path that
    arrives leads through, or to, a required node other than its searching
    node.  Another required node is only ever met as the destination of an
    edge that ends a scan with a merge. *)
Theorem searches_stop_at_required_nodes nodes edges required s p pth m :
  s ∈ search_trace nodes edges required ->
  act s = Arrived p pth m ->
  (forall e, e ∈ pth -> reqd_in (xnodes (pre s)) (XEdge.to e) ->
     XEdge.to e = who s) /\
  (reqd_in (xnodes (pre s)) p -> p = who s).
Proof.
  intros Hs Hact. unfold search_trace in Hs.
  destruct (annotate nodes edges required) as [g|] eqn:Ha;
    [|by apply elem_of_nil in Hs].
  destruct (search_invariant nodes edges required g
              (fun st => avoids (xnodes st)) Ha) as [_ HA].
  { intros i st _. apply visit_avoids. }
  { pose proof (annotate_spec _ _ _ _ Ha) as (_&_&_&_&_&Hseed).
    intros i x pp Hx Hpp. destruct (Hseed i x Hx) as (_&_&_&Hq).
    rewrite Hq in Hpp. destruct (reqd x); [|by apply elem_of_nil in Hpp].
    apply list_elem_of_singleton in Hpp as ->. constructor. }
  pose proof (search_paths_ok _ _ _ _ Ha) as [_ HP].
  pose proof (steps_faithful _ _ _ (search_steps g)) as HF.
  rewrite Forall_forall in HA, HP, HF.
  destruct (HA s Hs) as [A _]. destruct (HP s Hs) as [P _].
  destruct (HF s Hs) as (_&Hv&_).
  pose proof (visit_cases (who s) (pre s)) as V. rewrite <- Hv, Hact in V.
  destruct V as (n&pp&rest&xp&Hsh&Hr&->&->&Hp&_).
  destruct (paths_ok_arrive _ _ _ _ _ Hsh P) as (_&_&C).
  destruct Hsh as (Hn&_&_&Hq).
  assert (Forall (fun e => reqd_in (xnodes (pre s)) (XEdge.to e) ->
                           XEdge.to e = who s) (path pp)) as Hpp.
  { apply (A _ n pp Hn). rewrite Hq. by left. }
  split.
  - rewrite Forall_forall in Hpp. apply Hpp.
  - intros R. destruct (chain_end _ _ _ C) as [?|(e&He&Ee)]; [done|].
    rewrite <- Ee in *. rewrite Forall_forall in Hpp. by apply Hpp.
Qed.

Lemma searches_stop_at_required_nodes_witness :
  match search_trace late_nodes late_edges late_required !! 7 with
  | Some s =>
      (forall e, e ∈ [XEdge.mk (Edge.mk 1 2 2 0) 1 2 2 false false] ->
         reqd_in (xnodes (pre s)) (XEdge.to e) -> XEdge.to e = 1) /\
      (reqd_in (xnodes (pre s)) 2 -> 2 = 1)
  | None => False
  end.
Proof.
  run_trace 20 late_nodes late_edges late_required Htr.
  destruct (search_trace late_nodes late_edges late_required !! 7) as [s|] eqn:L;
    [|by rewrite Htr in L].
  pose proof (searches_stop_at_required_nodes late_nodes late_edges
                late_required s) as M.
  specialize (fun p pth m => M p pth m (list_elem_of_lookup_2 _ _ _ L)).
  rewrite Htr in L. vm_compute in L. injection L as <-.
  eapply (M 2 _ NoMerge). reflexivity.
Defined.

(** ** The order of the bodies of the loop *)

Lemma for_loop_round N tr todo i f st r0 :
  i + todo = N ->
  who <$> r0 = seq 0 i -> Forall (fun s => merged s = false) r0 ->
  sw_crashed (for_loop todo i f st (tr ++ r0)) = false ->
  exists r, sw_trace (for_loop todo i f st (tr ++ r0)) = tr ++ r /\
    round N r.
Proof.
  revert i f st r0. induction todo as [|todo IH]; intros i f st r0 HN Hw Hm;
    simpl.
  { intros _. exists r0. split; [done|].
    assert (length r0 = i) as L.
    { apply (f_equal length) in Hw. by rewrite length_fmap, length_seq in Hw. }
    split; [by rewrite L|]. left. split; [lia|done]. }
  set (s := mk_step i st (visit i st).2 (visit i st).1).
  assert (length r0 = i) as L.
  { apply (f_equal length) in Hw. by rewrite length_fmap, length_seq in Hw. }
  assert (who <$> (r0 ++ [s]) = seq 0 (S i)) as Hw'.
  { rewrite fmap_app, Hw, seq_S. done. }
  assert (forall f', merged s = false ->
            sw_crashed (for_loop todo (S i) f' (visit i st).1
                          ((tr ++ r0) ++ [s])) = false ->
            exists r, sw_trace (for_loop todo (S i) f' (visit i st).1
                                  ((tr ++ r0) ++ [s])) = tr ++ r /\
              round N r) as Go.
  { intros f' Hs Hc. rewrite <- app_assoc in Hc |- *.
    apply IH; [lia|done| |done].
    apply Forall_app. split; [done|]. by constructor. }
  assert (merged s = true ->
          exists r, (tr ++ r0) ++ [s] = tr ++ r /\ round N r) as Stop.
  { intros Hs. exists (r0 ++ [s]). split; [by rewrite app_assoc|].
    split; [by rewrite length_app, L, Nat.add_1_r|]. right.
    exists r0, s. split_and!; try done. rewrite length_app. simpl. lia. }
  destruct ((visit i st).2) as [| |p pth [| | |]|] eqn:E; simpl; try done.
  - by apply Go.
  - by apply Go.
  - by apply Go.
  - intros _. by apply Stop.
  - intros _. by apply Stop.
  - (* a scan never ends an arrival with a fault *)
    exfalso. pose proof (visit_cases i st) as V. rewrite E in V.
    by destruct V as (?&?&?&?&_&_&_&_&_&Hnf&_).
Qed.

Lemma sweep_rounds N st tr :
  length (xnodes st) = N -> rounds N tr ->
  sw_crashed (sweep st tr) = false -> rounds N (sw_trace (sweep st tr)).
Proof.
  intros L R Hc. unfold sweep in *.
  destruct (for_loop_round N tr (length (xnodes st)) 0 false st [])
    as (r&Hr&Hround); [lia|done|constructor|by rewrite app_nil_r|].
  rewrite app_nil_r in Hr. rewrite Hr. by constructor.
Qed.

Lemma for_loop_length todo i f st tr :
  length (xnodes (sw_state (for_loop todo i f st tr))) = length (xnodes st).
Proof.
  revert i f st tr. induction todo as [|todo IH]; intros i f st tr; simpl;
    [done|].
  pose proof (visit_length i st) as L.
  destruct ((visit i st).2) as [| |p pth [| | |]|]; simpl; try done;
    by rewrite IH.
Qed.

Lemma inner_rounds N st tr :
  length (xnodes st) = N -> rounds N tr ->
  sw_crashed (inner st tr) = false ->
  rounds N (sw_trace (inner st tr)) /\
  length (xnodes (sw_state (inner st tr))) = N.
Proof.
  apply (inner_rect' (fun st tr r =>
           length (xnodes st) = N -> rounds N tr -> sw_crashed r = false ->
           rounds N (sw_trace r) /\ length (xnodes (sw_state r)) = N)).
  - intros st' tr' _ L R Hc. split; [by apply sweep_rounds|].
    unfold sweep. by rewrite for_loop_length.
  - intros st' tr' r Ha IH L R Hc. unfold inner_again in Ha.
    apply andb_prop in Ha as [Hc' _]. apply negb_true_iff in Hc'.
    apply IH; [|by apply sweep_rounds|done].
    unfold sweep. by rewrite for_loop_length.
Qed.

Lemma outer_rounds N reqds st tr :
  length (xnodes st) = N -> rounds N tr ->
  crashed (outer reqds st tr) = false ->
  rounds N (trace (outer reqds st tr)).
Proof.
  apply (outer_rect' reqds (fun st tr r =>
           length (xnodes st) = N -> rounds N tr -> crashed r = false ->
           rounds N (trace r))).
  - done.
  - intros st' tr' _ _ L R Hc. simpl in *. by apply inner_rounds.
  - intros st' tr' r _ Ha IH L R Hc. unfold outer_again in Ha.
    apply andb_prop in Ha as [Hc' _]. apply negb_true_iff in Hc'.
    destruct (inner_rounds N st' tr' L R Hc') as [R' L']. by apply IH.
Qed.

(** X17. The bodies of the loop run in rounds.  In a round the nodes are
    taken in the order of [nodes], starting with the first; the round ends
    after the last node, or right after the first body that merges, and the
    next round starts with the first node again. *)
Theorem search_runs_in_rounds nodes edges required :
  rounds (length nodes) (search_trace nodes edges required).
Proof.
  unfold search_trace.
  destruct (annotate nodes edges required) as [g|] eqn:Ha; [|constructor].
  pose proof (annotate_spec _ _ _ _ Ha) as ((L&_)&_).
  pose proof (search_wf _ _ _ _ Ha) as (_&_&Hc).
  apply outer_rounds; [done|constructor|done].
Qed.
